(** * RAMCloud log cleaner: segment iterator and cleaner helpers

    A shallow embedding of [src/SegmentIterator.cc], of the inline parts
    of [src/LogCleaner.h] (LiveEntry, TimestampComparer, relocateEntry), of
    [MakeKey] from [src/KeyUtil.h] and of [Table] from [src/Server.h],
    together with the properties the specification states about them and
    further properties read off the code.

    Conventions.
    - [uintptr_t] and [uint64_t] values are integers in [0, 2^64); every
      arithmetic operation of the source on them is followed by [wrap64].
    - Pointers are addresses; [NULL] is address 0.
    - Memory is a partial map from addresses to bytes.  Reading an unmapped
      address is an invalid access ([Fault]); [throw 0] is [Throw]. *)

From Stdlib Require Import ZArith QArith List Bool Lia Sorted Permutation.
Import ListNotations.
Open Scope Z_scope.

(** ** Machine integers *)

Definition wrap64 (x : Z) : Z := x mod 2 ^ 64.

Definition NULL : Z := 0.

(** ** Outcomes of a call *)

Inductive result (A : Type) : Type :=
| Ok (a : A)
| Throw
| Fault.
Arguments Ok {A} a.
Arguments Throw {A}.
Arguments Fault {A}.

Definition bind {A B : Type} (r : result A) (k : A -> result B) : result B :=
  match r with
  | Ok a => k a
  | Throw => Throw
  | Fault => Fault
  end.

Notation "x <- r ;; k" := (bind r (fun x => k))
  (at level 61, r at next level, right associativity).

(** ** Memory *)

Definition memory := Z -> option Z.

(** A read of an [n]-byte little-endian unsigned field at address [a]. *)
Fixpoint load (m : memory) (a : Z) (n : nat) : option Z :=
  match n with
  | O => Some 0
  | S k =>
      match m a, load m (a + 1) k with
      | Some b, Some hi => Some (b + 256 * hi)
      | _, _ => None
      end
  end.

Definition deref (m : memory) (a : Z) (n : nat) : result Z :=
  match load m a n with
  | Some v => Ok v
  | None => Fault
  end.

(** The bytes [lo, hi) are all readable. *)
Definition mapped (m : memory) (lo hi : Z) : Prop :=
  forall a, lo <= a < hi -> m a <> None.

(** A memory that holds exactly the buffer [bytes] at address [base]. *)
Definition memory_of_buffer (base : Z) (bytes : list Z) : memory :=
  fun a =>
    if (base <=? a) && (a <? base + Z.of_nat (length bytes))
    then nth_error bytes (Z.to_nat (a - base))
    else None.

(** Little-endian encoding of [v] on [n] bytes. *)
Fixpoint encode (n : nat) (v : Z) : list Z :=
  match n with
  | O => []
  | S k => (v mod 256) :: encode k (v / 256)
  end.

(** ** Layout of the on-log structures

    [LogTypes.h], [Segment.h] and [SegmentIterator.h] are not part of the
    sources at hand, so the layout of [SegmentEntry] and [SegmentHeader] and
    the values of the [LogEntryType] enumerators are kept abstract. *)

Class SegmentLayout : Type := {
  sizeof_SegmentEntry : Z;
  offsetof_type : Z;
  width_type : nat;
  offsetof_length : Z;
  width_length : nat;
  sizeof_SegmentHeader : Z;
  offsetof_segmentCapacity : Z;
  LOG_ENTRY_TYPE_INVALID : Z;
  LOG_ENTRY_TYPE_SEGHEADER : Z;
  LOG_ENTRY_TYPE_SEGFOOTER : Z
}.

(** The fields lie inside their structures. *)
Record LayoutOk (L : SegmentLayout) : Prop := {
  type_in_entry :
    0 <= offsetof_type /\
    offsetof_type + Z.of_nat width_type <= sizeof_SegmentEntry;
  length_in_entry :
    0 <= offsetof_length /\
    offsetof_length + Z.of_nat width_length <= sizeof_SegmentEntry;
  capacity_in_header :
    0 <= offsetof_segmentCapacity /\
    offsetof_segmentCapacity + 8 <= sizeof_SegmentHeader
}.

(** Modelled from the spec: the declarations of [SegmentEntry] and
    [SegmentHeader] are missing; section 6 of the specification gives
    [SegmentEntry] as [type: u8], [reserved: u8], [length: u32],
    [checksum: u32] and [SegmentHeader] as [segmentId: u64],
    [segmentCapacity: u64], little-endian and without padding.  The
    enumerators are numbered in the order section 3 lists them
    (SEGHEADER, SEGFOOTER, OBJECT, TOMBSTONE, INVALID). *)
#[export] Instance spec_layout : SegmentLayout := {|
  sizeof_SegmentEntry := 10;
  offsetof_type := 0;
  width_type := 1;
  offsetof_length := 2;
  width_length := 4;
  sizeof_SegmentHeader := 16;
  offsetof_segmentCapacity := 8;
  LOG_ENTRY_TYPE_INVALID := 4;
  LOG_ENTRY_TYPE_SEGHEADER := 0;
  LOG_ENTRY_TYPE_SEGFOOTER := 1
|}.

Definition LOG_ENTRY_TYPE_OBJECT : Z := 2.

(** ** The segment iterator (SegmentIterator.cc) *)

Record SegmentIterator : Type := {
  baseAddress : Z;
  segmentCapacity : Z;
  id : Z;
  type : Z;
  length : Z;
  blobPtr : Z;
  sawFooter : bool;
  firstEntry : Z;
  currentEntry : Z
}.

Definition set_fields (it : SegmentIterator) (t l b : Z) : SegmentIterator :=
  {| baseAddress := baseAddress it;
     segmentCapacity := segmentCapacity it;
     id := id it;
     type := t;
     length := l;
     blobPtr := b;
     sawFooter := sawFooter it;
     firstEntry := firstEntry it;
     currentEntry := currentEntry it |}.

Definition set_sawFooter (it : SegmentIterator) (f : bool) : SegmentIterator :=
  {| baseAddress := baseAddress it;
     segmentCapacity := segmentCapacity it;
     id := id it;
     type := type it;
     length := length it;
     blobPtr := blobPtr it;
     sawFooter := f;
     firstEntry := firstEntry it;
     currentEntry := currentEntry it |}.

Definition set_currentEntry (it : SegmentIterator) (e : Z) : SegmentIterator :=
  {| baseAddress := baseAddress it;
     segmentCapacity := segmentCapacity it;
     id := id it;
     type := type it;
     length := length it;
     blobPtr := blobPtr it;
     sawFooter := sawFooter it;
     firstEntry := firstEntry it;
     currentEntry := e |}.

Definition set_firstEntry (it : SegmentIterator) (e : Z) : SegmentIterator :=
  {| baseAddress := baseAddress it;
     segmentCapacity := segmentCapacity it;
     id := id it;
     type := type it;
     length := length it;
     blobPtr := blobPtr it;
     sawFooter := sawFooter it;
     firstEntry := e;
     currentEntry := currentEntry it |}.

(** The done state as the specification describes it. *)
Definition done_state (it : SegmentIterator) : Prop :=
  sawFooter it = true \/ currentEntry it = NULL.

Section Iterator.
Context {L : SegmentLayout}.
Variable m : memory.

(** [entry->type], [entry->length] and [header->segmentCapacity]. *)
Definition entry_type (entry : Z) : result Z :=
  deref m (entry + offsetof_type) width_type.

Definition entry_length (entry : Z) : result Z :=
  deref m (entry + offsetof_length) width_length.

Definition header_segmentCapacity (header : Z) : result Z :=
  deref m (header + offsetof_segmentCapacity) 8.

(** SegmentIterator::isEntryValid.  The three locals are computed first
    (the third reads [entry->length]); then the underrun test throws and
    the overrun test returns false. *)
Definition isEntryValid (it : SegmentIterator) (entry : Z) : result bool :=
  let lastByte := wrap64 (baseAddress it + segmentCapacity it - 1) in
  let entryStart := entry in
  len <- entry_length entry ;;
  let entryLastByte := wrap64 (entryStart + len + sizeof_SegmentEntry - 1) in
  if entryStart <? baseAddress it then Throw
  else if entryLastByte >? lastByte then Ok false
  else Ok true.

(** SegmentIterator::isDone.  [||] does not evaluate its right operand
    when [sawFooter] is set. *)
Definition isDone (it : SegmentIterator) : result bool :=
  if sawFooter it then Ok true
  else
    v <- isEntryValid it (currentEntry it) ;;
    Ok (negb v).

(** SegmentIterator::next. *)
Definition next (it : SegmentIterator) : result SegmentIterator :=
  let it := set_fields it LOG_ENTRY_TYPE_INVALID 0 NULL in
  if currentEntry it =? NULL then Ok it
  else
    t <- entry_type (currentEntry it) ;;
    if t =? LOG_ENTRY_TYPE_SEGFOOTER then Ok (set_sawFooter it true)
    else
      len <- entry_length (currentEntry it) ;;
      let nextEntry := wrap64 (currentEntry it + sizeof_SegmentEntry + len) in
      let entry := nextEntry in
      v <- isEntryValid it entry ;;
      if negb v then Ok (set_currentEntry it NULL)
      else
        t' <- entry_type entry ;;
        len' <- entry_length entry ;;
        Ok (set_currentEntry
              (set_fields it t' len' (wrap64 (entry + sizeof_SegmentEntry)))
              entry).

(** SegmentIterator::getType and its siblings. *)
Definition getType (it : SegmentIterator) : result Z :=
  if currentEntry it =? NULL then Throw else Ok (type it).

Definition getLength (it : SegmentIterator) : result Z :=
  if currentEntry it =? NULL then Throw else Ok (length it).

Definition getPointer (it : SegmentIterator) : result Z :=
  if currentEntry it =? NULL then Throw else Ok (blobPtr it).

Definition getOffset (it : SegmentIterator) : result Z :=
  if currentEntry it =? NULL then Throw
  else Ok (wrap64 (blobPtr it - baseAddress it)).

(** SegmentIterator::CommonConstructor.  The three tests of the second
    [if] are evaluated left to right and stop at the first that holds. *)
Definition CommonConstructor (it : SegmentIterator) : result SegmentIterator :=
  if segmentCapacity it <? sizeof_SegmentEntry + sizeof_SegmentHeader
  then Throw
  else
    let entry := baseAddress it in
    t <- entry_type entry ;;
    if negb (t =? LOG_ENTRY_TYPE_SEGHEADER) then Throw
    else
      len <- entry_length entry ;;
      if negb (len =? sizeof_SegmentHeader) then Throw
      else
        v <- isEntryValid it entry ;;
        if negb v then Throw
        else
          let header := wrap64 (baseAddress it + sizeof_SegmentEntry) in
          c <- header_segmentCapacity header ;;
          if negb (c =? segmentCapacity it) then Throw
          else
            let it := set_fields it t len
                        (wrap64 (baseAddress it + sizeof_SegmentEntry)) in
            Ok (set_firstEntry (set_currentEntry it entry) entry).

(** The member initialisers the two constructors share: everything but the
    buffer, its length and the identifier starts out empty. *)
Definition initialised (buffer len ident : Z) : SegmentIterator :=
  {| baseAddress := buffer;
     segmentCapacity := len;
     id := ident;
     type := LOG_ENTRY_TYPE_INVALID;
     length := 0;
     blobPtr := NULL;
     sawFooter := false;
     firstEntry := NULL;
     currentEntry := NULL |}.

(** SegmentIterator::SegmentIterator(const void *buffer, uint64_t length). *)
Definition SegmentIterator_buffer (buffer len : Z) : result SegmentIterator :=
  CommonConstructor (initialised buffer len (wrap64 (-1))).

(** SegmentIterator::SegmentIterator(const Segment *segment).  Of [Segment]
    only the three getters the constructor calls are known. *)
Record Segment : Type := {
  getBaseAddress : Z;
  getCapacity : Z;
  getId : Z
}.

Definition SegmentIterator_segment (segment : Segment)
    : result SegmentIterator :=
  CommonConstructor
    (initialised (getBaseAddress segment) (getCapacity segment)
       (getId segment)).

(** [n] successive calls of [next]. *)
Fixpoint next_n (n : nat) (it : SegmentIterator) : result SegmentIterator :=
  match n with
  | O => Ok it
  | S k => it' <- next it ;; next_n k it'
  end.

(** The iterators a program can hold over the buffer [buffer] of length
    [len]: built by one of the two constructors, then advanced by [next]. *)
Inductive reachable (buffer len : Z) : SegmentIterator -> Prop :=
| reach_buffer it :
    SegmentIterator_buffer buffer len = Ok it ->
    reachable buffer len it
| reach_segment segment it :
    getBaseAddress segment = buffer ->
    getCapacity segment = len ->
    SegmentIterator_segment segment = Ok it ->
    reachable buffer len it
| reach_next it it' :
    reachable buffer len it ->
    next it = Ok it' ->
    reachable buffer len it'.

(** The invariant of the iterators a program can hold. *)
Record iterator_inv (buffer len : Z) (it : SegmentIterator) : Prop := {
  inv_base : baseAddress it = buffer;
  inv_capacity : segmentCapacity it = len;
  inv_valid :
    currentEntry it <> NULL -> isEntryValid it (currentEntry it) = Ok true;
  inv_fields :
    currentEntry it <> NULL -> sawFooter it = false ->
    entry_type (currentEntry it) = Ok (type it) /\
    entry_length (currentEntry it) = Ok (length it) /\
    blobPtr it = wrap64 (currentEntry it + sizeof_SegmentEntry);
  inv_footer :
    sawFooter it = true ->
    currentEntry it = NULL \/
    entry_type (currentEntry it) = Ok LOG_ENTRY_TYPE_SEGFOOTER;
  inv_done :
    done_state it ->
    type it = LOG_ENTRY_TYPE_INVALID /\ length it = 0 /\ blobPtr it = NULL
}.

End Iterator.

(** The entry at [entry] lies within the buffer [buffer, buffer + len). *)
Definition entry_in_buffer {L : SegmentLayout} (m : memory)
    (buffer len entry : Z) : Prop :=
  exists l,
    entry_length m entry = Ok l /\
    buffer <= entry /\
    entry + sizeof_SegmentEntry + l - 1 <= buffer + len - 1.

(** The conditions under which the specification has construction fail. *)
Definition format_error {L : SegmentLayout} (m : memory)
    (buffer len : Z) : Prop :=
  len < sizeof_SegmentEntry + sizeof_SegmentHeader \/
  entry_type m buffer <> Ok LOG_ENTRY_TYPE_SEGHEADER \/
  entry_length m buffer <> Ok sizeof_SegmentHeader \/
  ~ entry_in_buffer m buffer len buffer \/
  header_segmentCapacity m (buffer + sizeof_SegmentEntry) <> Ok len.

(** ** Two concrete segments in the layout of the specification *)

Definition segment_entry (t len : Z) : list Z :=
  [t; 0] ++ encode 4 len ++ encode 4 0.

Definition segment_header (segmentId capacity : Z) : list Z :=
  encode 8 segmentId ++ encode 8 capacity.

(** A 36-byte segment: the header entry, then the header of an OBJECT entry
    whose length field is 1, so that its payload would be the one byte past
    the end of the buffer. *)
Definition overlong_bytes : list Z :=
  segment_entry 0 16 ++ segment_header 7 36 ++ segment_entry 2 1.

Definition overlong_base : Z := 4096.

Definition overlong_memory : memory :=
  memory_of_buffer overlong_base overlong_bytes.

(** A 40-byte sealed segment: the header entry, then a SEGFOOTER entry with
    its 4-byte checksum. *)
Definition sealed_bytes : list Z :=
  segment_entry 0 16 ++ segment_header 7 40 ++ segment_entry 1 4 ++ encode 4 0.

Definition sealed_base : Z := 4096.

Definition sealed_memory : memory :=
  memory_of_buffer sealed_base sealed_bytes.

(** The iterator over [buffer] after [n] calls of [next]. *)
Definition iterate {L : SegmentLayout} (m : memory) (buffer len : Z)
    (n : nat) : result SegmentIterator :=
  it <- SegmentIterator_buffer m buffer len ;; next_n m n it.

(** The iterator over the first segment as constructed, and after one call
    of [next]. *)
Definition overlong_new : SegmentIterator :=
  {| baseAddress := 4096;
     segmentCapacity := 36;
     id := wrap64 (-1);
     type := 0;
     length := 16;
     blobPtr := 4106;
     sawFooter := false;
     firstEntry := 4096;
     currentEntry := 4096 |}.

Definition overlong_ended : SegmentIterator :=
  {| baseAddress := 4096;
     segmentCapacity := 36;
     id := wrap64 (-1);
     type := 4;
     length := 0;
     blobPtr := NULL;
     sawFooter := false;
     firstEntry := 4096;
     currentEntry := NULL |}.

(** The iterator over the sealed segment after two calls of [next]: on the
    footer entry, with the footer seen. *)
Definition sealed_done : SegmentIterator :=
  {| baseAddress := 4096;
     segmentCapacity := 40;
     id := wrap64 (-1);
     type := 4;
     length := 0;
     blobPtr := NULL;
     sawFooter := true;
     firstEntry := 4096;
     currentEntry := 4122 |}.

(** ** The cleaner (LogCleaner.h) *)

(** LogCleaner::LiveEntry: a segment pointer and two [uint32_t]. *)
Record LiveEntry : Type := {
  segment : Z;
  offset : Z;
  timestamp : Z
}.

(** LogCleaner::TimestampComparer::operator(). *)
Definition TimestampComparer (a b : LiveEntry) : bool :=
  timestamp a <? timestamp b.

(** A sort driven by a comparison functor [less], as [std::sort] is called
    with one: each element is inserted before the first element that is not
    less than it. *)
Section Sort.
Context {A : Type}.
Variable less : A -> A -> bool.

Fixpoint insert_sorted (x : A) (l : list A) : list A :=
  match l with
  | [] => [x]
  | y :: l' => if less y x then y :: insert_sorted x l' else x :: y :: l'
  end.

Fixpoint sort_with (l : list A) : list A :=
  match l with
  | [] => []
  | x :: l' => insert_sorted x (sort_with l')
  end.

End Sort.

(** Modelled from the spec: the body of LogCleaner::sortEntriesByTimestamp
    (LogCleaner.cc) is missing; stage S3 of the disk cleaner sorts the live
    entries by timestamp, ascending, and the header provides
    [TimestampComparer] for that purpose. *)
Definition sortEntriesByTimestamp (entries : list LiveEntry) : list LiveEntry :=
  sort_with TimestampComparer entries.

(** What the cost-benefit comparison reads of a segment. *)
Record LogSegment : Type := {
  segmentId : Z;
  liveFraction : Q;
  creationTimestamp : Z
}.

(** LogCleaner::CostBenefitComparer: the two private members. *)
Record CostBenefitComparer : Type := {
  now : Z;
  version : Z
}.

(** Modelled from the spec: the body of CostBenefitComparer::costBenefit
    (LogCleaner.cc) is missing; section 4.6.4 defines, for a segment with
    live fraction [u] and [age = now - creationTimestamp], the score
    [((1 - u) * age) / (1 + u)]. *)
Definition costBenefit (c : CostBenefitComparer) (s : LogSegment) : Q :=
  (((1 - liveFraction s) * inject_Z (now c - creationTimestamp s))
     / (1 + liveFraction s))%Q.

(** Modelled from the spec: the body of CostBenefitComparer::operator()
    (LogCleaner.cc) is missing; section 4.6.4 says that a higher score is
    better, so [a] goes before [b] when its score is strictly higher. *)
Definition CostBenefitComparer_call (c : CostBenefitComparer)
    (a b : LogSegment) : bool :=
  negb (Qle_bool (costBenefit c a) (costBenefit c b)).

(** Modelled from the spec: the body of LogCleaner::sortSegmentsByCostBenefit
    (LogCleaner.cc) is missing; stage S1 sorts the candidates by the
    cost-benefit score. *)
Definition sortSegmentsByCostBenefit (c : CostBenefitComparer)
    (segments : list LogSegment) : list LogSegment :=
  sort_with (CostBenefitComparer_call c) segments.

(** *** relocateEntry *)

(** The metrics bag [T] of relocateEntry: the four members the method
    touches, and everything else the bag holds. *)
Record Metrics (Rest : Type) : Type := {
  totalRelocationCallbacks : Z;
  relocationCallbackTicks : Z;
  totalRelocationAppends : Z;
  relocationAppendTicks : Z;
  otherCounters : Rest
}.
Arguments totalRelocationCallbacks {Rest} _.
Arguments relocationCallbackTicks {Rest} _.
Arguments totalRelocationAppends {Rest} _.
Arguments relocationAppendTicks {Rest} _.
Arguments otherCounters {Rest} _.

(** What relocateEntry uses of LogEntryRelocator, over survivors of type
    [Seg]: the constructor and two getters. *)
Class RelocatorOps (R Seg : Type) : Type := {
  new_relocator : option Seg -> Z -> R;
  failed : R -> bool;
  getAppendTicks : R -> Z
}.

Section RelocateEntry.
Context {R Seg Rest : Type} {ops : RelocatorOps R Seg}.

(** [entryHandlers.relocate(type, buffer, relocator)]: the handler works on
    the relocator it is given. *)
Variable relocate : Z -> list Z -> R -> R.

(** The cycles the [MetricCycleCounter] measures around the callback. *)
Variable callbackCycles : Z.

(** The outcome of a call: the value returned, the metrics bag and the
    relocator as the call leaves them. *)
Record Relocation : Type := {
  returned : bool;
  metrics_after : Metrics Rest;
  relocator_after : R
}.

(** LogCleaner::relocateEntry. *)
Definition relocateEntry (type : Z) (buffer : list Z) (survivor : option Seg)
    (metrics : Metrics Rest) : Relocation :=
  let relocator := new_relocator survivor (Z.of_nat (List.length buffer)) in
  let callbacks := wrap64 (totalRelocationCallbacks metrics + 1) in
  let relocator := relocate type buffer relocator in
  let callbackTicks := wrap64 (relocationCallbackTicks metrics + callbackCycles) in
  if failed relocator then
    {| returned := false;
       metrics_after :=
         {| totalRelocationCallbacks := callbacks;
            relocationCallbackTicks := callbackTicks;
            totalRelocationAppends := totalRelocationAppends metrics;
            relocationAppendTicks := relocationAppendTicks metrics;
            otherCounters := otherCounters metrics |};
       relocator_after := relocator |}
  else
    {| returned := true;
       metrics_after :=
         {| totalRelocationCallbacks := callbacks;
            relocationCallbackTicks := callbackTicks;
            totalRelocationAppends := wrap64 (totalRelocationAppends metrics + 1);
            relocationAppendTicks :=
              wrap64 (relocationAppendTicks metrics + getAppendTicks relocator);
            otherCounters := otherCounters metrics |};
       relocator_after := relocator |}.

End RelocateEntry.

(** *** The relocator and the per-entry step of a disk pass *)

(** Modelled from the spec: LogSegment.h is missing; a survivor is an
    appendable segment of fixed capacity that receives relocated entries
    (sections 3 and 4.6.3). *)
Record Survivor : Type := {
  capacity : Z;
  appendedLength : Z;
  appended : list (Z * list Z)
}.

Definition hasSpace (s : Survivor) (data : list Z) : bool :=
  appendedLength s + Z.of_nat (List.length data) <=? capacity s.

Definition write (s : Survivor) (type : Z) (data : list Z) : Survivor :=
  {| capacity := capacity s;
     appendedLength := appendedLength s + Z.of_nat (List.length data);
     appended := appended s ++ [(type, data)] |}.

(** Modelled from the spec: LogEntryRelocator.h is missing; section 4.5
    gives the relocator an [append] that writes the entry into the current
    survivor or reports out-of-space, and a [failed] that is true when an
    append was attempted and did not fit; the comment of relocateEntry adds
    that an append with a NULL survivor fails as well. *)
Record LogEntryRelocator : Type := {
  survivor : option Survivor;
  totalLength : Z;
  outOfSpace : bool;
  didAppend : bool;
  appendTicks : Z
}.

Definition LogEntryRelocator_new (s : option Survivor) (len : Z)
    : LogEntryRelocator :=
  {| survivor := s;
     totalLength := len;
     outOfSpace := false;
     didAppend := false;
     appendTicks := 0 |}.

Definition append (r : LogEntryRelocator) (type : Z) (data : list Z)
    (cycles : Z) : LogEntryRelocator :=
  match survivor r with
  | Some s =>
      if hasSpace s data then
        {| survivor := Some (write s type data);
           totalLength := totalLength r;
           outOfSpace := outOfSpace r;
           didAppend := true;
           appendTicks := cycles |}
      else
        {| survivor := survivor r;
           totalLength := totalLength r;
           outOfSpace := true;
           didAppend := didAppend r;
           appendTicks := appendTicks r |}
  | None =>
      {| survivor := None;
         totalLength := totalLength r;
         outOfSpace := true;
         didAppend := didAppend r;
         appendTicks := appendTicks r |}
  end.

#[export] Instance LogEntryRelocator_ops : RelocatorOps LogEntryRelocator Survivor := {|
  new_relocator := LogEntryRelocator_new;
  failed := outOfSpace;
  getAppendTicks := appendTicks
|}.

(** Modelled from the spec: LogEntryHandlers.h is missing; by section 4.5 a
    handler either declines (the entry is dead) or appends the entry,
    possibly transformed, through the relocator.  [cycles] is the time the
    append takes. *)
Inductive HandlerAction : Type :=
| Decline
| Append (type : Z) (data : list Z) (cycles : Z).

Definition LogEntryHandlers := Z -> list Z -> HandlerAction.

Definition relocate (entryHandlers : LogEntryHandlers) (type : Z)
    (buffer : list Z) (relocator : LogEntryRelocator) : LogEntryRelocator :=
  match entryHandlers type buffer with
  | Decline => relocator
  | Append t data cycles => append relocator t data cycles
  end.

(** Modelled from the spec: the body of LogCleaner::relocateLiveEntries
    (LogCleaner.cc) is missing; by stage S4 the cleaner invokes the handler
    on an entry and, if the relocator failed, seals the current survivor,
    acquires another one and retries the same entry.  [attempts] counts the
    calls of relocateEntry for the entry and [acquired] the survivors
    acquired. *)
Record PassState (Rest : Type) : Type := {
  current : option Survivor;
  sealed : list Survivor;
  acquired : nat;
  attempts : nat;
  pass_metrics : Metrics Rest
}.
Arguments current {Rest} _.
Arguments sealed {Rest} _.
Arguments acquired {Rest} _.
Arguments attempts {Rest} _.
Arguments pass_metrics {Rest} _.

Definition seal (s : option Survivor) (l : list Survivor) : list Survivor :=
  match s with
  | Some x => l ++ [x]
  | None => l
  end.

Definition relocateLiveEntry {Rest : Type} (entryHandlers : LogEntryHandlers)
    (callbackCycles : Z) (allocateSurvivor : Survivor)
    (type : Z) (buffer : list Z) (st : PassState Rest) : PassState Rest :=
  let first := relocateEntry (relocate entryHandlers) callbackCycles
                 type buffer (current st) (pass_metrics st) in
  if returned first then
    {| current := survivor (relocator_after first);
       sealed := sealed st;
       acquired := acquired st;
       attempts := 1;
       pass_metrics := metrics_after first |}
  else
    let second := relocateEntry (relocate entryHandlers) callbackCycles
                    type buffer (Some allocateSurvivor) (metrics_after first) in
    {| current := survivor (relocator_after second);
       sealed := seal (current st) (sealed st);
       acquired := S (acquired st);
       attempts := 2;
       pass_metrics := metrics_after second |}.

(** *** Concrete inputs *)

(** A metrics bag with nothing counted yet and no other members. *)
Definition zero_metrics : Metrics unit :=
  {| totalRelocationCallbacks := 0;
     relocationCallbackTicks := 0;
     totalRelocationAppends := 0;
     relocationAppendTicks := 0;
     otherCounters := tt |}.

(** A handler for which every entry is dead, and one for which every entry
    is live and is appended as it is. *)
Definition decline_all : LogEntryHandlers := fun _ _ => Decline.

Definition append_all : LogEntryHandlers := fun t data => Append t data 0.

(** Scenario D of the specification: a survivor with 200 bytes free and an
    entry of 500 bytes. *)
Definition nearly_full : Survivor :=
  {| capacity := 1000; appendedLength := 800; appended := [] |}.

Definition fresh_survivor : Survivor :=
  {| capacity := 1000; appendedLength := 0; appended := [] |}.

Definition big_entry : list Z := repeat 0 500.

(** Scenario B of the specification: the live entries of two sources, with
    timestamps 200..202 and 100..102. *)
Definition scenario_B : list LiveEntry :=
  [ {| segment := 2; offset := 0; timestamp := 200 |};
    {| segment := 1; offset := 0; timestamp := 100 |};
    {| segment := 2; offset := 64; timestamp := 202 |};
    {| segment := 1; offset := 64; timestamp := 101 |};
    {| segment := 2; offset := 128; timestamp := 201 |};
    {| segment := 1; offset := 128; timestamp := 102 |} ].

(** Scenario C of the specification, at time 1000: S1 (u = 0.2, age 10),
    S2 (u = 0.2, age 1) and S3 (u = 0.8, age 100). *)
Definition scenario_C_comparer : CostBenefitComparer :=
  {| now := 1000; version := 1 |}.

Definition scenario_C : list LogSegment :=
  [ {| segmentId := 1; liveFraction := 2 # 10; creationTimestamp := 990 |};
    {| segmentId := 2; liveFraction := 2 # 10; creationTimestamp := 999 |};
    {| segmentId := 3; liveFraction := 8 # 10; creationTimestamp := 900 |} ].

(** ** Further notions for the iterator *)

(** Every readable cell of the memory holds a byte. *)
Definition byte_memory (m : memory) : Prop :=
  forall a b, m a = Some b -> 0 <= b < 256.

(** Nothing is readable from address [limit] on. *)
Definition unreadable_from (m : memory) (limit : Z) : Prop :=
  forall a, limit <= a -> m a = None.

(** The entries [(type, length)] of [es] are laid out back to back from
    address [a] on: each entry header is followed by its payload, and the
    next entry header follows the payload. *)
Fixpoint laid_out {L : SegmentLayout} (m : memory) (a : Z)
    (es : list (Z * Z)) : Prop :=
  match es with
  | [] => True
  | (t, l) :: es' =>
      entry_type m a = Ok t /\
      entry_length m a = Ok l /\
      0 <= l /\
      laid_out m (a + sizeof_SegmentEntry + l) es'
  end.

(** The address of entry number [k] of such a sequence, and the address
    just past the last entry. *)
Fixpoint entry_address {L : SegmentLayout} (a : Z) (es : list (Z * Z))
    (k : nat) : Z :=
  match k, es with
  | S k', (_, l) :: es' => entry_address (a + sizeof_SegmentEntry + l) es' k'
  | _, _ => a
  end.

Fixpoint segment_end {L : SegmentLayout} (a : Z) (es : list (Z * Z)) : Z :=
  match es with
  | [] => a
  | (_, l) :: es' => segment_end (a + sizeof_SegmentEntry + l) es'
  end.

(** A 53-byte sealed segment with one 3-byte object: the header entry, an
    OBJECT entry with payload 1 2 3, and the footer entry. *)
Definition log_bytes : list Z :=
  segment_entry 0 16 ++ segment_header 7 53 ++
  segment_entry 2 3 ++ [1; 2; 3] ++
  segment_entry 1 4 ++ encode 4 0.

Definition log_base : Z := 4096.

Definition log_memory : memory := memory_of_buffer log_base log_bytes.

Definition log_entries : list (Z * Z) := [(0, 16); (2, 3); (1, 4)].

(** The iterator over that segment after one call of [next]: on the
    object. *)
Definition log_on_object : SegmentIterator :=
  {| baseAddress := 4096;
     segmentCapacity := 53;
     id := wrap64 (-1);
     type := 2;
     length := 3;
     blobPtr := 4132;
     sawFooter := false;
     firstEntry := 4096;
     currentEntry := 4122 |}.

(** The iterator over that segment as constructed. *)
Definition initialised_log : SegmentIterator :=
  {| baseAddress := 4096;
     segmentCapacity := 53;
     id := wrap64 (-1);
     type := 0;
     length := 16;
     blobPtr := 4106;
     sawFooter := false;
     firstEntry := 4096;
     currentEntry := 4096 |}.

(** The iterator over that segment once the footer has been seen. *)
Definition log_done : SegmentIterator :=
  {| baseAddress := 4096;
     segmentCapacity := 53;
     id := wrap64 (-1);
     type := 4;
     length := 0;
     blobPtr := NULL;
     sawFooter := true;
     firstEntry := 4096;
     currentEntry := 4135 |}.

(** A 26-byte segment that holds the header entry and nothing else. *)
Definition header_only_bytes : list Z :=
  segment_entry 0 16 ++ segment_header 7 26.

Definition header_only_memory : memory :=
  memory_of_buffer 4096 header_only_bytes.

Definition header_only_new : SegmentIterator :=
  {| baseAddress := 4096;
     segmentCapacity := 26;
     id := wrap64 (-1);
     type := 0;
     length := 16;
     blobPtr := 4106;
     sawFooter := false;
     firstEntry := 4096;
     currentEntry := 4096 |}.

(** ** Successive calls of relocateEntry on one metrics bag *)

Section RelocateEntries.
Context {R Seg Rest : Type} {ops : RelocatorOps R Seg}.
Variable handler : Z -> list Z -> R -> R.

(** The arguments of one call, and the cycles its callback takes. *)
Record RelocateCall : Type := {
  call_type : Z;
  call_buffer : list Z;
  call_survivor : option Seg;
  call_cycles : Z
}.

(** The calls are made in order; the bag is passed by reference, so each
    call starts from the counters that the previous one left. *)
Fixpoint relocateEntries (calls : list RelocateCall) (metrics : Metrics Rest)
    : list bool * Metrics Rest :=
  match calls with
  | [] => ([], metrics)
  | c :: rest =>
      let r := relocateEntry handler (call_cycles c) (call_type c)
                 (call_buffer c) (call_survivor c) metrics in
      let '(results, metrics') := relocateEntries rest (metrics_after r) in
      (returned r :: results, metrics')
  end.

End RelocateEntries.

(** The number of calls that returned true. *)
Definition successes (results : list bool) : Z :=
  Z.of_nat (List.length (filter (fun b => b) results)).

(** The cycles of all callbacks together. *)
Definition total_cycles {Seg : Type} (calls : list (@RelocateCall Seg)) : Z :=
  fold_right (fun c acc => call_cycles c + acc) 0 calls.

(** ** Keys (KeyUtil.h) *)

(** MakeKey: the one member is a [uint64_t]. *)
Record MakeKey : Type := { val : Z }.

(** MakeKey::MakeKey(uint64_t value). *)
Definition MakeKey_uint64 (value : Z) : MakeKey := {| val := value |}.

(** MakeKey::MakeKey(int value): [static_cast<uint64_t>] of an [int] is the
    value modulo 2^64. *)
Definition MakeKey_int (value : Z) : MakeKey := {| val := wrap64 value |}.

(** The values of type [int]. *)
Definition is_int (x : Z) : Prop := - 2 ^ 31 <= x < 2 ^ 31.

(** ** Tables (Server.h) *)

(** What [Table] uses of [Hashtable], whose header is not at hand: the
    three operations on a map from keys to object pointers. *)
Class HashtableOps (H : Type) : Type := {
  Lookup : H -> Z -> Z;
  Insert : H -> Z -> Z -> H;
  Delete : H -> Z -> H
}.

(** The behaviour [Table] relies on: a deleted key is absent, a key
    inserted while absent is found, and other keys are not affected. *)
Record HashtableLaws {H : Type} (ops : HashtableOps H) : Prop := {
  lookup_delete : forall h k, Lookup (Delete h k) k = NULL;
  lookup_delete_other :
    forall h k k', k' <> k -> Lookup (Delete h k) k' = Lookup h k';
  lookup_insert :
    forall h k o, Lookup h k = NULL -> Lookup (Insert h k o) k = o;
  lookup_insert_other :
    forall h k k' o, k' <> k -> Lookup (Insert h k o) k' = Lookup h k'
}.

(** A hash table as a function from keys to pointers. *)
#[export] Instance function_table : HashtableOps (Z -> Z) := {|
  Lookup := fun h k => h k;
  Insert := fun h k o => fun k' => if k' =? k then o else h k';
  Delete := fun h k => fun k' => if k' =? k then NULL else h k'
|}.

Section Table.
Context {H : Type} {hashtable : HashtableOps H}.

Record Table : Type := {
  name : list Z;
  next_key : Z;
  next_version : Z;
  object_map : H
}.

Definition TABLE_NAME_MAX_LEN : nat := 64.

(** [strncpy(dest, src, n)] for a string [src] given without its
    terminator: the first [n] characters of [src], padded with NUL up to
    [n]; the rest of [dest] is kept. *)
Definition strncpy (dest src : list Z) (n : nat) : list Z :=
  firstn n (src ++ repeat 0 n) ++ skipn n dest.

(** [a[i] = c]. *)
Definition store (a : list Z) (i : nat) (c : Z) : list Z :=
  firstn i a ++ c :: skipn (S i) a.

(** The string that starts at the beginning of a character array: the
    characters before the first NUL.  An array that holds no NUL gives no
    string: reading it runs past the end of the array. *)
Fixpoint c_str (a : list Z) : option (list Z) :=
  match a with
  | [] => None
  | c :: rest =>
      if c =? 0 then Some []
      else
        match c_str rest with
        | Some s => Some (c :: s)
        | None => None
        end
  end.

(** Table::GetName: the address of [name[0]], read as a string. *)
Definition GetName (t : Table) : option (list Z) := c_str (name t).

(** Table::SetName. *)
Definition SetName (t : Table) (new_name : list Z) : Table :=
  {| name := store (strncpy (name t) new_name TABLE_NAME_MAX_LEN)
               (TABLE_NAME_MAX_LEN - 1) 0;
     next_key := next_key t;
     next_version := next_version t;
     object_map := object_map t |}.

(** Table::Get. *)
Definition Get (t : Table) (key : Z) : Z := Lookup (object_map t) key.

(** Table::Put. *)
Definition Put (t : Table) (key o : Z) : Table :=
  {| name := name t;
     next_key := next_key t;
     next_version := next_version t;
     object_map := Insert (Delete (object_map t) key) key o |}.

(** Table::Delete. *)
Definition Table_Delete (t : Table) (key : Z) : Table :=
  {| name := name t;
     next_key := next_key t;
     next_version := next_version t;
     object_map := Delete (object_map t) key |}.

Definition set_next_key (t : Table) (k : Z) : Table :=
  {| name := name t;
     next_key := k;
     next_version := next_version t;
     object_map := object_map t |}.

(** Table::AllocateKey.  The loop runs while the key under [next_key] is
    taken; [fuel] bounds the number of tests. *)
Fixpoint AllocateKey (fuel : nat) (t : Table) : option (Z * Table) :=
  match fuel with
  | O => None
  | S fuel' =>
      if Get t (next_key t) =? NULL then Some (next_key t, t)
      else AllocateKey fuel' (set_next_key t (wrap64 (next_key t + 1)))
  end.

(** Table::AllocateVersion: the post-increment returns the old value. *)
Definition AllocateVersion (t : Table) : Z * Table :=
  (next_version t,
   {| name := name t;
      next_key := next_key t;
      next_version := wrap64 (next_version t + 1);
      object_map := object_map t |}).

(** [n] calls of AllocateVersion, with the versions they return. *)
Fixpoint AllocateVersions (n : nat) (t : Table) : list Z * Table :=
  match n with
  | O => ([], t)
  | S n' =>
      let '(v, t1) := AllocateVersion t in
      let '(vs, t2) := AllocateVersions n' t1 in
      (v :: vs, t2)
  end.

End Table.

(** A table with the objects 100 and 101 under the keys 0 and 1, as the
    constructor leaves the other members, and with an arbitrary name. *)
Definition two_objects : @Table (Z -> Z) :=
  {| name := repeat 120 64;
     next_key := 0;
     next_version := 1;
     object_map := fun k => if k =? 0 then 100 else if k =? 1 then 101 else NULL |}.

(** Three calls with a handler that appends every entry: into a fresh
    survivor, into one that is nearly full, and with no survivor. *)
Definition three_calls : list (@RelocateCall Survivor) :=
  [ {| call_type := 2; call_buffer := [1; 2; 3];
       call_survivor := Some fresh_survivor; call_cycles := 5 |};
    {| call_type := 2; call_buffer := big_entry;
       call_survivor := Some nearly_full; call_cycles := 7 |};
    {| call_type := 2; call_buffer := [4];
       call_survivor := None; call_cycles := 1 |} ].

(** * Properties *)

(** ** Machine integers and memory *)

Lemma wrap64_small (x : Z) : 0 <= x < 2 ^ 64 -> wrap64 x = x.
Proof. intros H. unfold wrap64. now apply Z.mod_small. Qed.

Lemma wrap64_range (x : Z) : 0 <= wrap64 x < 2 ^ 64.
Proof. unfold wrap64. apply Z.mod_pos_bound. lia. Qed.

Lemma wrap64_succ_neq (x : Z) : 0 <= x < 2 ^ 64 -> wrap64 (x + 1) <> x.
Proof.
  intros H E.
  destruct (Z.eq_dec x (2 ^ 64 - 1)) as [->|N].
  - vm_compute in E. discriminate.
  - rewrite wrap64_small in E; lia.
Qed.

Lemma load_mapped (m : memory) (n : nat) :
  forall a, mapped m a (a + Z.of_nat n) -> exists v, load m a n = Some v.
Proof.
  induction n as [|n IH]; intros a H.
  - now exists 0.
  - cbn [load].
    destruct (m a) as [b|] eqn:Eb.
    + destruct (IH (a + 1)) as [hi Ehi].
      { intros x Hx. apply H. lia. }
      rewrite Ehi. now eexists.
    + exfalso. apply (H a); [lia | assumption].
Qed.

Lemma deref_mapped (m : memory) (lo hi a : Z) (n : nat) :
  mapped m lo hi -> lo <= a -> a + Z.of_nat n <= hi ->
  exists v, deref m a n = Ok v.
Proof.
  intros H Hlo Hhi. unfold deref.
  destruct (load_mapped m n a) as [v ->]; [|now exists v].
  intros x Hx. apply H. lia.
Qed.

Lemma deref_unmapped (m : memory) (a : Z) (n : nat) :
  m a = None -> n <> O -> deref m a n = Fault.
Proof.
  intros H Hn. destruct n as [|n]; [congruence|].
  unfold deref. cbn [load]. now rewrite H.
Qed.

(** ** The segment iterator *)

(** Projections of the updated records. *)
Ltac fields :=
  cbn [baseAddress segmentCapacity id type length blobPtr sawFooter
       firstEntry currentEntry
       set_fields set_sawFooter set_currentEntry set_firstEntry] in *.

(** Case analysis on the outcome of the first call in a sequence. *)
Ltac step_as v E :=
  match goal with
  | |- context [bind ?r _] =>
      destruct r as [v| |] eqn:E; cbn [bind]; try discriminate
  end.

Section IteratorFacts.
Context {L : SegmentLayout}.
Variable m : memory.

Lemma isEntryValid_same_buffer (it it' : SegmentIterator) (entry : Z) :
  baseAddress it' = baseAddress it ->
  segmentCapacity it' = segmentCapacity it ->
  isEntryValid m it' entry = isEntryValid m it entry.
Proof. intros Hb Hc. unfold isEntryValid. now rewrite Hb, Hc. Qed.

(** What [isEntryValid] returns when the length field is readable. *)
Lemma isEntryValid_cases (it : SegmentIterator) (entry len : Z) :
  entry_length m entry = Ok len ->
  isEntryValid m it entry =
    if entry <? baseAddress it then Throw
    else if wrap64 (entry + len + sizeof_SegmentEntry - 1)
              >? wrap64 (baseAddress it + segmentCapacity it - 1)
         then Ok false else Ok true.
Proof. intros H. unfold isEntryValid. now rewrite H. Qed.

(** A valid entry never starts below the buffer. *)
Lemma isEntryValid_true_start (it : SegmentIterator) (entry : Z) :
  isEntryValid m it entry = Ok true -> baseAddress it <= entry.
Proof.
  unfold isEntryValid.
  destruct (entry_length m entry) as [len| |]; cbn; try discriminate.
  destruct (entry <? baseAddress it) eqn:E; [discriminate|]. lia.
Qed.

(** With a null cursor and no footer seen, [isDone] cannot return: the
    length read through the null cursor is an invalid access, and if the
    bytes at address 0 happen to be readable the underrun test throws. *)
Lemma isDone_null_cursor (it : SegmentIterator) :
  sawFooter it = false -> currentEntry it = NULL -> 0 < baseAddress it ->
  isDone m it = Throw \/ isDone m it = Fault.
Proof.
  intros Hf Hc Hb. unfold isDone, isEntryValid. rewrite Hf, Hc.
  destruct (entry_length m NULL) as [len| |]; cbn; auto.
  unfold NULL. destruct (0 <? baseAddress it) eqn:E; [auto | lia].
Qed.

Lemma isDone_sawFooter (it : SegmentIterator) :
  sawFooter it = true -> isDone m it = Ok true.
Proof. intros H. unfold isDone. now rewrite H. Qed.

Lemma CommonConstructor_inv (buffer len ident : Z) (it : SegmentIterator) :
  0 < buffer ->
  CommonConstructor m (initialised buffer len ident) = Ok it ->
  iterator_inv m buffer len it.
Proof.
  intros Hnn. unfold CommonConstructor, initialised. fields.
  destruct (len <? _); [discriminate|].
  destruct (entry_type m buffer) as [t| |] eqn:Et; cbn [bind];
    try discriminate.
  destruct (t =? LOG_ENTRY_TYPE_SEGHEADER); cbn [negb]; [|discriminate].
  destruct (entry_length m buffer) as [l| |] eqn:El; cbn [bind];
    try discriminate.
  destruct (l =? sizeof_SegmentHeader); cbn [negb]; [|discriminate].
  match goal with |- context [isEntryValid m ?i buffer] =>
    destruct (isEntryValid m i buffer) as [[|]| |] eqn:Ev end;
    cbn [bind negb]; try discriminate.
  destruct (header_segmentCapacity m _) as [c| |]; cbn [bind];
    try discriminate.
  destruct (c =? len); cbn [negb]; [|discriminate].
  intros [= <-]. split; fields; auto; try discriminate.
  unfold done_state, NULL. fields. intros [H|H]; [discriminate | lia].
Qed.

Lemma next_inv (buffer len : Z) (it it' : SegmentIterator) :
  0 < buffer ->
  iterator_inv m buffer len it -> next m it = Ok it' ->
  iterator_inv m buffer len it'.
Proof.
  intros Hnn [Hb Hc Hv Hfi Hfo Hd]. unfold next. fields.
  destruct (currentEntry it =? NULL) eqn:Enull.
  { apply Z.eqb_eq in Enull. intros [= <-]. split; fields; auto; contradiction. }
  apply Z.eqb_neq in Enull.
  step_as t Et.
  destruct (t =? LOG_ENTRY_TYPE_SEGFOOTER) eqn:Efoot.
  { apply Z.eqb_eq in Efoot. subst t. intros [= <-].
    split; fields; auto; discriminate. }
  apply Z.eqb_neq in Efoot.
  assert (Hsf : sawFooter it = false).
  { destruct (sawFooter it); [|reflexivity].
    destruct (Hfo eq_refl) as [H|H]; [contradiction | congruence]. }
  step_as l El. step_as v Ev. destruct v; cbn [negb].
  - step_as t' Et'. step_as l' El'.
    intros [= <-]. split; fields; auto; try congruence.
    apply isEntryValid_true_start in Ev. fields.
    unfold done_state, NULL. fields. intros [H|H]; [congruence | lia].
  - intros [= <-]. split; fields; auto; contradiction.
Qed.

Lemma reachable_inv (buffer len : Z) (it : SegmentIterator) :
  0 < buffer -> reachable m buffer len it -> iterator_inv m buffer len it.
Proof.
  intros Hnn H. induction H as [it H | seg it <- <- H | it it' _ IH H].
  - now apply CommonConstructor_inv in H.
  - now apply CommonConstructor_inv in H.
  - now apply (next_inv buffer len it it').
Qed.

Lemma CommonConstructor_sawFooter (it it' : SegmentIterator) :
  CommonConstructor m it = Ok it' -> sawFooter it' = sawFooter it.
Proof.
  unfold CommonConstructor.
  destruct (_ <? _); [discriminate|].
  step_as t Et. destruct (negb _); [discriminate|].
  step_as l El. destruct (negb _); [discriminate|].
  step_as v Ev. destruct (negb _); [discriminate|].
  step_as c Ec. destruct (negb _); [discriminate|].
  intros [= <-]. reflexivity.
Qed.

Lemma reachable_footer (buffer len : Z) (it : SegmentIterator) :
  reachable m buffer len it ->
  sawFooter it = true ->
  currentEntry it = NULL \/
  entry_type m (currentEntry it) = Ok LOG_ENTRY_TYPE_SEGFOOTER.
Proof.
  intros H. induction H as [it H | seg it _ _ H | it it' _ IH H].
  - apply CommonConstructor_sawFooter in H. cbn in H. congruence.
  - apply CommonConstructor_sawFooter in H. cbn in H. congruence.
  - revert H. unfold next. fields.
    destruct (currentEntry it =? NULL) eqn:Enull.
    { intros [= <-]. fields. exact IH. }
    apply Z.eqb_neq in Enull.
    step_as t Et.
    destruct (Z.eqb_spec t LOG_ENTRY_TYPE_SEGFOOTER) as [->|Nt].
    { intros [= <-]. fields. auto. }
    assert (Hsf : sawFooter it = false).
    { destruct (sawFooter it); [|reflexivity].
      destruct (IH eq_refl) as [H|H]; [contradiction | congruence]. }
    step_as l El. step_as v Ev. destruct v; cbn [negb].
    + step_as t' Et'. step_as l' El'. intros [= <-]. fields. congruence.
    + intros [= <-]. fields. congruence.
Qed.

Lemma next_n_fixed (it : SegmentIterator) :
  next m it = Ok it -> forall n, next_n m n it = Ok it.
Proof.
  intros H n. induction n as [|n IH]; [reflexivity|].
  cbn [next_n]. rewrite H. exact IH.
Qed.

(** While the iterator is on an entry, [isDone] returns false. *)
Lemma isDone_false_on_entry (buffer len : Z) (it : SegmentIterator) :
  0 < buffer -> reachable m buffer len it ->
  sawFooter it = false -> currentEntry it <> NULL ->
  isDone m it = Ok false.
Proof.
  intros Hb Hr Hf Hc. apply reachable_inv in Hr; [|assumption].
  unfold isDone. rewrite Hf, (inv_valid _ _ _ _ Hr Hc). reflexivity.
Qed.

(** While [isDone] returns false, the four queries return the type, the
    length, the payload address and the payload offset of the entry under
    the cursor. *)
Lemma queries_while_not_done (buffer len : Z) (it : SegmentIterator) :
  0 < buffer -> reachable m buffer len it -> isDone m it = Ok false ->
  getType it = entry_type m (currentEntry it) /\
  getLength it = entry_length m (currentEntry it) /\
  getPointer it = Ok (wrap64 (currentEntry it + sizeof_SegmentEntry)) /\
  getOffset it =
    Ok (wrap64 (wrap64 (currentEntry it + sizeof_SegmentEntry) - buffer)).
Proof.
  intros Hb Hr Hd. apply reachable_inv in Hr; [|assumption].
  unfold isDone in Hd.
  destruct (sawFooter it) eqn:Hf; [discriminate|].
  destruct (isEntryValid m it (currentEntry it)) as [[|]| |] eqn:Ev;
    cbn in Hd; try discriminate.
  apply isEntryValid_true_start in Ev. rewrite (inv_base _ _ _ _ Hr) in Ev.
  assert (Hc : currentEntry it <> NULL) by (unfold NULL; lia).
  destruct (inv_fields _ _ _ _ Hr Hc Hf) as (Ht & Hl & Hp).
  unfold getType, getLength, getPointer, getOffset.
  apply Z.eqb_neq in Hc. rewrite Hc, Ht, Hl, Hp, (inv_base _ _ _ _ Hr). auto.
Qed.

(** *** Validity of entries and the end of iteration *)

Lemma isEntryValid_spec (it : SegmentIterator) (entry len : Z) :
  entry_length m entry = Ok len ->
  0 <= entry + sizeof_SegmentEntry + len - 1 < 2 ^ 64 ->
  0 <= baseAddress it + segmentCapacity it - 1 < 2 ^ 64 ->
  isEntryValid m it entry =
    if entry <? baseAddress it then Throw
    else Ok (entry + sizeof_SegmentEntry + len - 1
               <=? baseAddress it + segmentCapacity it - 1).
Proof.
  intros Hl H1 H2. rewrite (isEntryValid_cases it entry len Hl).
  replace (entry + len + sizeof_SegmentEntry - 1)
    with (entry + sizeof_SegmentEntry + len - 1) by lia.
  rewrite !wrap64_small by assumption.
  destruct (entry <? baseAddress it); [reflexivity|].
  destruct (_ >? _) eqn:E1; destruct (_ <=? _) eqn:E2; try reflexivity; lia.
Qed.

(** The validity test on the entry that follows the current one, when the
    length field of that entry can be read.  The entry is valid exactly
    when it starts at or after the start of the buffer and its last byte is
    at or before the last byte of the buffer.  A start below the buffer
    makes [isEntryValid], and with it [next], throw.  For an entry that
    starts in range and ends past the last byte, [next] itself returns,
    with a null cursor; every later [next] leaves the iterator as it is and
    the four queries throw.  What [isDone] does in that state is another
    matter: see [isDone_after_invalid_next]. *)
Theorem next_entry_validity (it : SegmentIterator) (t len entry elen : Z) :
  currentEntry it <> NULL ->
  entry_type m (currentEntry it) = Ok t ->
  t <> LOG_ENTRY_TYPE_SEGFOOTER ->
  entry_length m (currentEntry it) = Ok len ->
  entry = wrap64 (currentEntry it + sizeof_SegmentEntry + len) ->
  entry_length m entry = Ok elen ->
  0 <= entry + sizeof_SegmentEntry + elen - 1 < 2 ^ 64 ->
  0 <= baseAddress it + segmentCapacity it - 1 < 2 ^ 64 ->
  (isEntryValid m it entry = Ok true <->
   baseAddress it <= entry /\
   entry + sizeof_SegmentEntry + elen - 1
     <= baseAddress it + segmentCapacity it - 1) /\
  (entry < baseAddress it ->
   isEntryValid m it entry = Throw /\ next m it = Throw) /\
  (baseAddress it <= entry ->
   baseAddress it + segmentCapacity it - 1
     < entry + sizeof_SegmentEntry + elen - 1 ->
   isEntryValid m it entry = Ok false /\
   exists it',
     next m it = Ok it' /\
     currentEntry it' = NULL /\
     sawFooter it' = sawFooter it /\
     (forall n, next_n m n it' = Ok it') /\
     getType it' = Throw /\ getLength it' = Throw /\
     getPointer it' = Throw /\ getOffset it' = Throw).
Proof.
  intros Hc Ht Hnf Hl -> Hel H1 H2.
  set (entry := wrap64 (currentEntry it + sizeof_SegmentEntry + len)) in *.
  pose proof (isEntryValid_spec it entry elen Hel H1 H2) as Hv.
  assert (Hnext : next m it =
                  v <- isEntryValid m it entry ;;
                  if negb v
                  then Ok (set_currentEntry
                             (set_fields it LOG_ENTRY_TYPE_INVALID 0 NULL) NULL)
                  else
                    t' <- entry_type m entry ;;
                    len' <- entry_length m entry ;;
                    Ok (set_currentEntry
                          (set_fields
                             (set_fields it LOG_ENTRY_TYPE_INVALID 0 NULL)
                             t' len' (wrap64 (entry + sizeof_SegmentEntry)))
                          entry)).
  { unfold next. fields. apply Z.eqb_neq in Hc. rewrite Hc, Ht. cbn [bind].
    apply Z.eqb_neq in Hnf. rewrite Hnf, Hl. cbn [bind]. reflexivity. }
  repeat split.
  - rewrite Hv in H. destruct (entry <? baseAddress it) eqn:E; [discriminate|].
    lia.
  - rewrite Hv in H. destruct (entry <? baseAddress it) eqn:E; [discriminate|].
    injection H as H. lia.
  - intros [Ha Hb]. rewrite Hv.
    destruct (entry <? baseAddress it) eqn:E; [lia|].
    f_equal. apply Z.leb_le. lia.
  - rewrite Hv. apply Z.ltb_lt in H. now rewrite H.
  - rewrite Hnext, Hv. apply Z.ltb_lt in H. now rewrite H.
  - rewrite Hv. destruct (entry <? baseAddress it) eqn:E; [lia|].
    f_equal. apply Z.leb_gt. lia.
  - eexists. split.
    + rewrite Hnext, Hv. destruct (entry <? baseAddress it) eqn:E; [lia|].
      cbn [bind]. replace (_ <=? _) with false by (symmetry; apply Z.leb_gt; lia).
      reflexivity.
    + fields. repeat split.
      apply next_n_fixed. reflexivity.
Qed.

(** C9. In the done state a call of [next] returns, keeps the cursor and the
    footer flag, leaves no entry in the iterator, and brings it to a state
    that every further call leaves unchanged. *)
Theorem next_idempotent_when_done (buffer len : Z) (it : SegmentIterator) :
  reachable m buffer len it ->
  done_state it ->
  exists it',
    next m it = Ok it' /\
    currentEntry it' = currentEntry it /\
    sawFooter it' = sawFooter it /\
    done_state it' /\
    type it' = LOG_ENTRY_TYPE_INVALID /\ length it' = 0 /\ blobPtr it' = NULL /\
    next m it' = Ok it' /\
    (forall n, next_n m (S n) it = Ok it').
Proof.
  intros Hr Hd.
  assert (Hcase : currentEntry it = NULL \/
                  (currentEntry it <> NULL /\ sawFooter it = true /\
                   entry_type m (currentEntry it) = Ok LOG_ENTRY_TYPE_SEGFOOTER)).
  { destruct (Z.eq_dec (currentEntry it) NULL) as [E|E]; [now left|].
    right. destruct Hd as [Hf|Hn]; [|contradiction].
    destruct (reachable_footer buffer len it Hr Hf) as [H|H];
      [contradiction | auto]. }
  destruct Hcase as [Hn | (Hn & Hf & Ht)].
  - assert (H1 : next m it = Ok (set_fields it LOG_ENTRY_TYPE_INVALID 0 NULL)).
    { unfold next. fields. now rewrite Hn. }
    assert (H2 : next m (set_fields it LOG_ENTRY_TYPE_INVALID 0 NULL)
                 = Ok (set_fields it LOG_ENTRY_TYPE_INVALID 0 NULL)).
    { unfold next. fields. now rewrite Hn. }
    eexists. split; [exact H1|]. fields. repeat split; auto.
    intros n. cbn [next_n]. rewrite H1. cbn [bind].
    now apply next_n_fixed.
  - set (it' := set_sawFooter (set_fields it LOG_ENTRY_TYPE_INVALID 0 NULL) true).
    assert (H1 : next m it = Ok it').
    { unfold next. fields. apply Z.eqb_neq in Hn. rewrite Hn, Ht. cbn [bind].
      now rewrite Z.eqb_refl. }
    assert (H2 : next m it' = Ok it').
    { unfold next, it'. fields. apply Z.eqb_neq in Hn. rewrite Hn, Ht.
      cbn [bind]. now rewrite Z.eqb_refl. }
    exists it'. split; [exact H1|]. unfold it' at 1 2 3 4 5 6. fields.
    repeat split; auto; try (now left).
    intros n. cbn [next_n]. rewrite H1. cbn [bind].
    now apply next_n_fixed.
Qed.

(** *** Construction *)

(** C3. Over a readable buffer, construction throws exactly when the buffer
    is shorter than an entry header plus a segment header, or the first
    entry is not a SEGHEADER, or its length is not that of a segment header,
    or it does not lie within the buffer, or the capacity recorded in the
    segment header differs from the buffer length; otherwise it returns an
    iterator placed on the first entry. *)
Theorem CommonConstructor_format_error (it : SegmentIterator) :
  LayoutOk L ->
  0 < baseAddress it ->
  baseAddress it + segmentCapacity it <= 2 ^ 64 ->
  mapped m (baseAddress it) (baseAddress it + segmentCapacity it) ->
  (CommonConstructor m it = Throw <->
   format_error m (baseAddress it) (segmentCapacity it)) /\
  (~ format_error m (baseAddress it) (segmentCapacity it) ->
   exists it',
     CommonConstructor m it = Ok it' /\
     currentEntry it' = baseAddress it /\
     sawFooter it' = sawFooter it /\
     type it' = LOG_ENTRY_TYPE_SEGHEADER /\
     length it' = sizeof_SegmentHeader).
Proof.
  intros [[Ht1 Ht2] [Hl1 Hl2] [Hc1 Hc2]] Hbase Htop Hmap.
  set (buffer := baseAddress it) in *. set (len := segmentCapacity it) in *.
  unfold CommonConstructor. fold buffer len.
  destruct (len <? sizeof_SegmentEntry + sizeof_SegmentHeader) eqn:Esmall.
  { apply Z.ltb_lt in Esmall. unfold format_error. split.
    - split; auto.
    - intros H. exfalso. apply H. now left. }
  apply Z.ltb_ge in Esmall.
  destruct (deref_mapped m buffer (buffer + len)
              (buffer + offsetof_type) width_type Hmap) as [t Et]; try lia.
  destruct (deref_mapped m buffer (buffer + len)
              (buffer + offsetof_length) width_length Hmap) as [l El]; try lia.
  destruct (deref_mapped m buffer (buffer + len)
              (buffer + sizeof_SegmentEntry + offsetof_segmentCapacity) 8 Hmap)
    as [c Ec]; try lia.
  fold (entry_type m buffer) in Et. fold (entry_length m buffer) in El.
  fold (header_segmentCapacity m (buffer + sizeof_SegmentEntry)) in Ec.
  rewrite Et. cbn [bind].
  assert (Hfits : l = sizeof_SegmentHeader ->
                  isEntryValid m it buffer = Ok true /\
                  entry_in_buffer m buffer len buffer).
  { intros ->. split.
    - rewrite (isEntryValid_cases it buffer _ El). fold buffer len.
      rewrite !wrap64_small by lia.
      destruct (buffer <? buffer) eqn:E1; [lia|].
      destruct (_ >? _) eqn:E2; [lia | reflexivity].
    - exists sizeof_SegmentHeader. repeat split; [assumption | lia ..]. }
  unfold format_error. rewrite Et, El, Ec.
  destruct (Z.eqb_spec t LOG_ENTRY_TYPE_SEGHEADER) as [->|Nt]; cbn [negb].
  2: { split; [split; auto; intros _; right; left; congruence|].
       intros H. exfalso. apply H. right; left. congruence. }
  cbn [bind].
  destruct (Z.eqb_spec l sizeof_SegmentHeader) as [->|Nl]; cbn [negb].
  2: { split; [split; auto; intros _; right; right; left; congruence|].
       intros H. exfalso. apply H. right; right; left. congruence. }
  destruct (Hfits eq_refl) as [Hv Hin]. rewrite Hv. cbn [bind negb].
  rewrite wrap64_small by lia. rewrite Ec. cbn [bind].
  destruct (Z.eqb_spec c len) as [->|Nc]; cbn [negb].
  2: { split; [split; auto; intros _; do 4 right; congruence|].
       intros H. exfalso. apply H. do 4 right. congruence. }
  split.
  - split; [discriminate|].
    intros [H|[H|[H|[H|H]]]]; try lia; try congruence; contradiction.
  - intros _. eexists. split; [reflexivity|]. fields. auto.
Qed.

End IteratorFacts.

(** *** The two concrete segments *)

Lemma memory_of_buffer_mapped (base : Z) (bytes : list Z) :
  mapped (memory_of_buffer base bytes) base
    (base + Z.of_nat (List.length bytes)).
Proof.
  intros a Ha. unfold memory_of_buffer.
  replace (base <=? a) with true by (symmetry; apply Z.leb_le; lia).
  replace (a <? _) with true by (symmetry; apply Z.ltb_lt; lia).
  cbn [andb]. apply nth_error_Some. lia.
Qed.

Lemma spec_layout_ok : LayoutOk spec_layout.
Proof. split; cbn; lia. Qed.

Lemma overlong_construction :
  SegmentIterator_buffer overlong_memory overlong_base 36 = Ok overlong_new.
Proof. vm_compute. reflexivity. Qed.

Lemma overlong_reachable :
  reachable overlong_memory overlong_base 36 overlong_ended.
Proof.
  apply reach_next with (it := overlong_new).
  - apply reach_buffer. exact overlong_construction.
  - vm_compute. reflexivity.
Qed.

Lemma sealed_reachable : reachable sealed_memory sealed_base 40 sealed_done.
Proof.
  eapply reach_next; [eapply reach_next; [apply reach_buffer|]|].
  - vm_compute. reflexivity.
  - vm_compute. reflexivity.
  - vm_compute. reflexivity.
Qed.

(** C1. The source does not do what the specification says for a null
    cursor.  On the 36-byte segment whose second entry ends one byte late,
    construction succeeds and the first [next] finds the entry invalid and
    ends the iteration with a null cursor and no footer seen; [isDone] then
    evaluates [isEntryValid] on the null cursor, whose first action is to
    read [entry->length]: an invalid access instead of the answer true.  The
    queries, in the same state, test the cursor and throw. *)
Theorem isDone_after_invalid_entry :
  iterate overlong_memory overlong_base 36 0 = Ok overlong_new /\
  isDone overlong_memory overlong_new = Ok false /\
  iterate overlong_memory overlong_base 36 1 = Ok overlong_ended /\
  currentEntry overlong_ended = NULL /\
  sawFooter overlong_ended = false /\
  isDone overlong_memory overlong_ended = Fault /\
  getType overlong_ended = Throw.
Proof. repeat split; vm_compute; reflexivity. Qed.

(** C2. The source does not do what the specification says after the
    footer.  On the sealed 40-byte segment the second [next] observes the
    SEGFOOTER entry: [isDone] returns true from then on, yet the cursor
    stays on the footer entry, so the four queries do not throw; they
    return the invalid type, length 0, a null payload pointer and the
    offset of the null pointer from the buffer. *)
Theorem queries_after_footer :
  iterate sealed_memory sealed_base 40 2 = Ok sealed_done /\
  sawFooter sealed_done = true /\
  isDone sealed_memory sealed_done = Ok true /\
  getType sealed_done = Ok LOG_ENTRY_TYPE_INVALID /\
  getLength sealed_done = Ok 0 /\
  getPointer sealed_done = Ok NULL /\
  getOffset sealed_done = Ok (2 ^ 64 - sealed_base).
Proof. repeat split; vm_compute; reflexivity. Qed.

(** A buffer length that differs from the recorded capacity is rejected. *)
Lemma construction_rejects_other_capacity :
  SegmentIterator_buffer overlong_memory overlong_base 35 = Throw.
Proof. vm_compute. reflexivity. Qed.

Lemma CommonConstructor_format_error_witness :
  (CommonConstructor overlong_memory (initialised overlong_base 36 (wrap64 (-1))) = Throw
   <-> format_error overlong_memory overlong_base 36) /\
  (~ format_error overlong_memory overlong_base 36 ->
   exists it',
     CommonConstructor overlong_memory (initialised overlong_base 36 (wrap64 (-1)))
       = Ok it' /\
     currentEntry it' = overlong_base /\
     sawFooter it' = false /\
     type it' = LOG_ENTRY_TYPE_SEGHEADER /\
     length it' = sizeof_SegmentHeader).
Proof.
  apply (CommonConstructor_format_error overlong_memory
           (initialised overlong_base 36 (wrap64 (-1)))).
  - exact spec_layout_ok.
  - reflexivity.
  - vm_compute. discriminate.
  - exact (memory_of_buffer_mapped overlong_base overlong_bytes).
Defined.

Lemma next_entry_validity_witness :
  isEntryValid overlong_memory overlong_new 4122 = Ok false /\
  exists it',
    next overlong_memory overlong_new = Ok it' /\
    currentEntry it' = NULL /\
    (forall n, next_n overlong_memory n it' = Ok it') /\
    getType it' = Throw.
Proof.
  destruct (next_entry_validity overlong_memory overlong_new 0 16 4122 1)
    as (_ & _ & H).
  - discriminate.
  - reflexivity.
  - discriminate.
  - reflexivity.
  - reflexivity.
  - reflexivity.
  - cbn. lia.
  - cbn. lia.
  - destruct H as (Hv & it' & Hn & Hc & _ & Hfix & Ht & _).
    + cbn. lia.
    + cbn. lia.
    + split; [exact Hv|]. exists it'. auto.
Defined.

Lemma next_idempotent_when_done_witness :
  exists it',
    next sealed_memory sealed_done = Ok it' /\
    currentEntry it' = 4122 /\
    sawFooter it' = true /\
    (forall n, next_n sealed_memory (S n) sealed_done = Ok it').
Proof.
  destruct (next_idempotent_when_done sealed_memory sealed_base 40 sealed_done)
    as (it' & Hn & Hc & Hf & _ & _ & _ & _ & _ & Hall).
  - exact sealed_reachable.
  - left. reflexivity.
  - exists it'. auto.
Defined.

(** ** Sorting with a comparison functor *)

Section SortFacts.
Context {A : Type}.
Variable less : A -> A -> bool.
Variable le : A -> A -> Prop.
Hypothesis le_trans : forall a b c, le a b -> le b c -> le a c.
Hypothesis less_le : forall a b, less a b = true -> le a b.
Hypothesis not_less_le : forall a b, less a b = false -> le b a.

Lemma insert_sorted_perm (x : A) (l : list A) :
  Permutation (x :: l) (insert_sorted less x l).
Proof.
  induction l as [|y l IH]; cbn [insert_sorted]; [reflexivity|].
  destruct (less y x); [|reflexivity].
  rewrite perm_swap. now apply perm_skip.
Qed.

Lemma sort_with_perm (l : list A) : Permutation l (sort_with less l).
Proof.
  induction l as [|x l IH]; cbn [sort_with]; [reflexivity|].
  rewrite <- insert_sorted_perm. now apply perm_skip.
Qed.

Lemma insert_sorted_sorted (x : A) (l : list A) :
  StronglySorted le l -> StronglySorted le (insert_sorted less x l).
Proof.
  induction 1 as [|y l Hs IH Hy]; cbn [insert_sorted].
  - constructor; constructor.
  - destruct (less y x) eqn:E.
    + constructor; [exact IH|].
      apply (Permutation_Forall (insert_sorted_perm x l)).
      constructor; [now apply less_le | exact Hy].
    + apply not_less_le in E.
      constructor; [now constructor|].
      constructor; [exact E|].
      revert Hy. apply Forall_impl. intros z Hz. now apply (le_trans x y z).
Qed.

Lemma sort_with_sorted (l : list A) : StronglySorted le (sort_with less l).
Proof.
  induction l as [|x l IH]; cbn [sort_with]; [constructor|].
  now apply insert_sorted_sorted.
Qed.

Lemma StronglySorted_nth_error (l : list A) :
  StronglySorted le l ->
  forall i j a b, (i < j)%nat ->
  nth_error l i = Some a -> nth_error l j = Some b -> le a b.
Proof.
  induction 1 as [|x l Hs IH Hx]; intros i j a b Hij Ha Hb.
  - destruct i; discriminate.
  - destruct j as [|j]; [lia|]. cbn in Hb.
    destruct i as [|i]; cbn in Ha.
    + injection Ha as <-. rewrite Forall_forall in Hx.
      apply Hx. now apply nth_error_In with j.
    + apply (IH i j); [lia | assumption ..].
Qed.

(** Two sorted arrangements of the same elements are equal when no two
    different elements are tied. *)
Lemma sorted_perm_unique (l1 : list A) :
  forall l2,
  StronglySorted le l1 -> StronglySorted le l2 -> Permutation l1 l2 ->
  (forall a b, In a l1 -> In b l1 -> le a b -> le b a -> a = b) ->
  l1 = l2.
Proof.
  induction l1 as [|a l1 IH]; intros l2 H1 H2 Hp Hanti.
  - apply Permutation_nil in Hp. now subst.
  - destruct l2 as [|b l2].
    { symmetry in Hp. apply Permutation_nil in Hp. discriminate. }
    apply StronglySorted_inv in H1. destruct H1 as [H1 Ha].
    apply StronglySorted_inv in H2. destruct H2 as [H2 Hb].
    rewrite Forall_forall in Ha, Hb.
    assert (Hab : a = b).
    { assert (Ia : In a (b :: l2)) by (apply (Permutation_in _ Hp); now left).
      assert (Ib : In b (a :: l1)).
      { apply (Permutation_in _ (Permutation_sym Hp)). now left. }
      destruct Ia as [->|Ia]; [reflexivity|].
      destruct Ib as [->|Ib]; [reflexivity|].
      apply Hanti; [now left | now right | now apply Ha | now apply Hb]. }
    subst b. f_equal. apply IH; try assumption.
    + now apply Permutation_cons_inv with a.
    + intros x y Hx Hy. apply Hanti; now right.
Qed.

End SortFacts.

(** ** Age sorting *)

(** C6. Sorting live entries with the timestamp comparer keeps the entries
    (the result is a permutation of the input) and puts their cached
    timestamps in non-decreasing order: an entry never stands before one
    with a strictly smaller timestamp. *)
Theorem sortEntriesByTimestamp_ascending (entries : list LiveEntry) :
  Permutation entries (sortEntriesByTimestamp entries) /\
  StronglySorted (fun a b => timestamp a <= timestamp b)
    (sortEntriesByTimestamp entries) /\
  (forall i j a b, (i < j)%nat ->
     nth_error (sortEntriesByTimestamp entries) i = Some a ->
     nth_error (sortEntriesByTimestamp entries) j = Some b ->
     ~ timestamp b < timestamp a).
Proof.
  assert (Hs : StronglySorted (fun a b => timestamp a <= timestamp b)
                 (sortEntriesByTimestamp entries)).
  { apply sort_with_sorted.
    - intros a b c. lia.
    - intros a b. unfold TimestampComparer. rewrite Z.ltb_lt. lia.
    - intros a b. unfold TimestampComparer. rewrite Z.ltb_ge. lia. }
  split; [apply sort_with_perm|]. split; [exact Hs|].
  intros i j a b Hij Ha Hb.
  pose proof (StronglySorted_nth_error _ _ Hs i j a b Hij Ha Hb) as H.
  cbn beta in H. lia.
Qed.

(** ** Cost-benefit selection *)

Lemma CostBenefitComparer_call_true (c : CostBenefitComparer)
    (a b : LogSegment) :
  CostBenefitComparer_call c a b = true <->
  (costBenefit c b < costBenefit c a)%Q.
Proof.
  unfold CostBenefitComparer_call. rewrite negb_true_iff.
  split.
  - intros H. apply Qnot_le_lt. intros Hle.
    apply Qle_bool_iff in Hle. congruence.
  - intros H. destruct (Qle_bool _ _) eqn:E; [|reflexivity].
    apply Qle_bool_iff in E. exfalso. now apply (Qlt_not_le _ _ H).
Qed.

Lemma CostBenefitComparer_call_false (c : CostBenefitComparer)
    (a b : LogSegment) :
  CostBenefitComparer_call c a b = false ->
  (costBenefit c a <= costBenefit c b)%Q.
Proof.
  unfold CostBenefitComparer_call. rewrite negb_false_iff.
  apply Qle_bool_iff.
Qed.

(** C5. The comparer puts a segment before another exactly when its score
    [((1 - u) * age) / (1 + u)] is strictly higher; sorting the candidates
    with it keeps them and leaves the scores in non-increasing order; and
    three segments with (u = 0.2, age = 10), (u = 0.2, age = 1) and
    (u = 0.8, age = 100) have the scores 20/3, 2/3 and 100/9 and come out
    as the third, the first, the second. *)
Theorem costBenefit_ordering (c : CostBenefitComparer) :
  (forall a b,
     CostBenefitComparer_call c a b = true <->
     (costBenefit c b < costBenefit c a)%Q) /\
  (forall segments,
     Permutation segments (sortSegmentsByCostBenefit c segments) /\
     StronglySorted (fun a b => (costBenefit c b <= costBenefit c a)%Q)
       (sortSegmentsByCostBenefit c segments)) /\
  (forall s1 s2 s3,
     (liveFraction s1 == 2 # 10)%Q -> now c - creationTimestamp s1 = 10 ->
     (liveFraction s2 == 2 # 10)%Q -> now c - creationTimestamp s2 = 1 ->
     (liveFraction s3 == 8 # 10)%Q -> now c - creationTimestamp s3 = 100 ->
     (costBenefit c s1 == 20 # 3)%Q /\
     (costBenefit c s2 == 2 # 3)%Q /\
     (costBenefit c s3 == 100 # 9)%Q /\
     sortSegmentsByCostBenefit c [s1; s2; s3] = [s3; s1; s2] /\
     (forall candidates,
        Permutation [s1; s2; s3] candidates ->
        sortSegmentsByCostBenefit c candidates = [s3; s1; s2])).
Proof.
  split; [apply CostBenefitComparer_call_true|]. split.
  - intros segments. split; [apply sort_with_perm|].
    apply sort_with_sorted.
    + intros x y z Hxy Hyz. now apply Qle_trans with (costBenefit c y).
    + intros a b H. apply Qlt_le_weak.
      now apply CostBenefitComparer_call_true.
    + intros a b. apply CostBenefitComparer_call_false.
  - intros s1 s2 s3 Hu1 Ha1 Hu2 Ha2 Hu3 Ha3.
    assert (E1 : (costBenefit c s1 == 20 # 3)%Q).
    { unfold costBenefit. rewrite Hu1, Ha1. reflexivity. }
    assert (E2 : (costBenefit c s2 == 2 # 3)%Q).
    { unfold costBenefit. rewrite Hu2, Ha2. reflexivity. }
    assert (E3 : (costBenefit c s3 == 100 # 9)%Q).
    { unfold costBenefit. rewrite Hu3, Ha3. reflexivity. }
    assert (H32 : CostBenefitComparer_call c s3 s2 = true).
    { unfold CostBenefitComparer_call. now rewrite E3, E2. }
    assert (H31 : CostBenefitComparer_call c s3 s1 = true).
    { unfold CostBenefitComparer_call. now rewrite E3, E1. }
    assert (H21 : CostBenefitComparer_call c s2 s1 = false).
    { unfold CostBenefitComparer_call. now rewrite E2, E1. }
    assert (Hsort : sortSegmentsByCostBenefit c [s1; s2; s3] = [s3; s1; s2]).
    { unfold sortSegmentsByCostBenefit. cbn [sort_with insert_sorted].
      rewrite H32. cbn [insert_sorted]. rewrite H31, H21. reflexivity. }
    repeat split; try assumption.
    intros candidates Hp.
    apply (sorted_perm_unique
             (fun a b => (costBenefit c b <= costBenefit c a)%Q)).
    + apply sort_with_sorted.
      * intros x y z Hxy Hyz. now apply Qle_trans with (costBenefit c y).
      * intros a b H. apply Qlt_le_weak.
        now apply CostBenefitComparer_call_true.
      * intros a b. apply CostBenefitComparer_call_false.
    + rewrite <- Hsort. apply sort_with_sorted.
      * intros x y z Hxy Hyz. now apply Qle_trans with (costBenefit c y).
      * intros a b H. apply Qlt_le_weak.
        now apply CostBenefitComparer_call_true.
      * intros a b. apply CostBenefitComparer_call_false.
    + unfold sortSegmentsByCostBenefit.
      rewrite <- (sort_with_perm _ candidates), <- Hp.
      rewrite <- Hsort. apply sort_with_perm.
    + intros a b Ia Ib.
      assert (Ha : In a [s1; s2; s3]).
      { apply (Permutation_in _ (Permutation_sym Hp)).
        apply (Permutation_in _ (Permutation_sym (sort_with_perm _ _)) Ia). }
      assert (Hb : In b [s1; s2; s3]).
      { apply (Permutation_in _ (Permutation_sym Hp)).
        apply (Permutation_in _ (Permutation_sym (sort_with_perm _ _)) Ib). }
      cbn [In] in Ha, Hb.
      destruct Ha as [<-|[<-|[<-|[]]]]; destruct Hb as [<-|[<-|[<-|[]]]];
        try reflexivity; rewrite ?E1, ?E2, ?E3; intros Hx Hy; exfalso;
        (now apply Hx) || (now apply Hy).
Qed.

(** Scenario C: the segments are selected in the order S3, S1, S2. *)
Lemma scenario_C_order :
  map segmentId (sortSegmentsByCostBenefit scenario_C_comparer scenario_C)
  = [3; 1; 2].
Proof. vm_compute. reflexivity. Qed.

(** ** Relocation of an entry *)

Section RelocateEntryFacts.
Context {R Seg Rest : Type} {ops : RelocatorOps R Seg}.
Variable handler : Z -> list Z -> R -> R.
Variable callbackCycles : Z.

Lemma relocateEntry_returned (type : Z) (buffer : list Z)
    (survivor : option Seg) (metrics : Metrics Rest) :
  returned (relocateEntry handler callbackCycles type buffer survivor metrics)
  = negb (failed (handler type buffer
                    (new_relocator survivor (Z.of_nat (List.length buffer))))).
Proof. unfold relocateEntry. now destruct (failed _). Qed.

(** C10. Whatever the handler and the relocator do, a call of relocateEntry
    adds one to [totalRelocationCallbacks]; it adds one to
    [totalRelocationAppends] when it returns true and leaves that counter
    and [relocationAppendTicks] alone when it returns false; and the rest of
    the bag is as before.  The additions are those of 64-bit counters, and
    are exact below the largest value. *)
Theorem relocateEntry_metrics (type : Z) (buffer : list Z)
    (survivor : option Seg) (metrics : Metrics Rest) :
  0 <= totalRelocationCallbacks metrics < 2 ^ 64 ->
  0 <= totalRelocationAppends metrics < 2 ^ 64 ->
  let r := relocateEntry handler callbackCycles type buffer survivor metrics in
  totalRelocationCallbacks (metrics_after r)
    = wrap64 (totalRelocationCallbacks metrics + 1) /\
  (totalRelocationCallbacks metrics < 2 ^ 64 - 1 ->
   totalRelocationCallbacks (metrics_after r)
     = totalRelocationCallbacks metrics + 1) /\
  (returned r = true <->
   totalRelocationAppends (metrics_after r)
     = wrap64 (totalRelocationAppends metrics + 1)) /\
  (returned r = true -> totalRelocationAppends metrics < 2 ^ 64 - 1 ->
   totalRelocationAppends (metrics_after r)
     = totalRelocationAppends metrics + 1) /\
  (returned r = false <->
   totalRelocationAppends (metrics_after r) = totalRelocationAppends metrics) /\
  (returned r = false ->
   relocationAppendTicks (metrics_after r) = relocationAppendTicks metrics) /\
  otherCounters (metrics_after r) = otherCounters metrics.
Proof.
  intros Hc Ha r. subst r. unfold relocateEntry.
  pose proof (wrap64_succ_neq _ Ha) as Hneq.
  destruct (failed _); cbn [returned metrics_after totalRelocationCallbacks
    totalRelocationAppends relocationAppendTicks otherCounters].
  - repeat split; try reflexivity; try discriminate; try congruence.
    intros H. apply wrap64_small. lia.
  - repeat split; try reflexivity; try discriminate; try congruence.
    + intros H. apply wrap64_small. lia.
    + intros _ H. apply wrap64_small. lia.
Qed.

End RelocateEntryFacts.

(** Case analysis on the test [relocator.failed()] of relocateEntry. *)
Ltac failed_cases E :=
  unfold relocateEntry;
  match goal with
  | |- context [if failed ?x then _ else _] => destruct (failed x) eqn:E
  end;
  cbn [returned relocator_after metrics_after].

Section RelocationFacts.
Context {Rest : Type}.
Variable entryHandlers : LogEntryHandlers.
Variable callbackCycles : Z.

Lemma relocate_failed (type : Z) (buffer : list Z) (s : option Survivor) :
  failed (relocate entryHandlers type buffer
            (new_relocator s (Z.of_nat (List.length buffer)))) = true <->
  exists t data cycles,
    entryHandlers type buffer = Append t data cycles /\
    (s = None \/ exists x, s = Some x /\ hasSpace x data = false).
Proof.
  unfold relocate. cbn [failed new_relocator LogEntryRelocator_ops].
  destruct (entryHandlers type buffer) as [|t data cycles].
  - cbn. split; [discriminate|]. intros (t & d & k & H & _). discriminate.
  - unfold append, LogEntryRelocator_new. cbn [survivor].
    destruct s as [x|].
    + destruct (hasSpace x data) eqn:E; cbn [outOfSpace].
      * split; [discriminate|].
        intros (t' & d & k & [= _ <- _] & [H|(y & [= <-] & H)]); congruence.
      * split; [|reflexivity]. intros _. exists t, data, cycles.
        split; [reflexivity|]. right. now exists x.
    + cbn [outOfSpace]. split; [|reflexivity]. intros _.
      exists t, data, cycles. auto.
Qed.

(** C7. relocateEntry returns false exactly when the relocator reports
    [failed] after the callback, which is exactly when the handler tried to
    append and the survivor was NULL or had too little space; it returns
    true otherwise, in particular when the handler declines.  In a disk
    pass, a false result is what makes the cleaner acquire a new survivor
    and call relocateEntry a second time for the same entry; a true result
    ends the work on the entry with the survivors as they were. *)
Theorem relocateEntry_false_iff_failed (type : Z) (buffer : list Z)
    (st : PassState Rest) (allocateSurvivor : Survivor) :
  let r := relocateEntry (relocate entryHandlers) callbackCycles
             type buffer (current st) (pass_metrics st) in
  let st' := relocateLiveEntry entryHandlers callbackCycles allocateSurvivor
               type buffer st in
  (returned r = false <-> failed (relocator_after r) = true) /\
  (returned r = false <->
   exists t data cycles,
     entryHandlers type buffer = Append t data cycles /\
     (current st = None \/
      exists s, current st = Some s /\ hasSpace s data = false)) /\
  (returned r = true <-> failed (relocator_after r) = false) /\
  (entryHandlers type buffer = Decline -> returned r = true) /\
  (returned r = false <->
   acquired st' = S (acquired st) /\ attempts st' = 2%nat) /\
  (returned r = true <->
   acquired st' = acquired st /\ attempts st' = 1%nat).
Proof.
  intros r st'.
  assert (Hret : returned r = negb (failed (relocator_after r))).
  { subst r. failed_cases E; now rewrite E. }
  assert (Hfail : failed (relocator_after r) = true <->
                  exists t data cycles,
                    entryHandlers type buffer = Append t data cycles /\
                    (current st = None \/
                     exists s, current st = Some s /\ hasSpace s data = false)).
  { rewrite <- relocate_failed. subst r. failed_cases E; now rewrite E. }
  assert (Hst : st' = relocateLiveEntry entryHandlers callbackCycles
                        allocateSurvivor type buffer st) by reflexivity.
  unfold relocateLiveEntry in Hst. fold r in Hst.
  split; [rewrite Hret; now destruct (failed _)|].
  split; [rewrite <- Hfail, Hret; now destruct (failed _)|].
  split; [rewrite Hret; now destruct (failed _)|].
  split.
  { intros Hd. rewrite Hret.
    destruct (failed (relocator_after r)); [|reflexivity].
    destruct (proj1 Hfail eq_refl) as (t & d & k & E & _). congruence. }
  destruct (returned r); rewrite Hst; cbn [acquired attempts];
    repeat split; try discriminate; try reflexivity; try lia.
Qed.

End RelocationFacts.

(** Scenario D: the entry does not fit, relocateEntry returns false, the
    cleaner seals the survivor, acquires a fresh one and the second call
    appends the entry there. *)
Lemma scenario_D :
  returned (relocateEntry (relocate append_all) 0 LOG_ENTRY_TYPE_OBJECT
              big_entry (Some nearly_full) zero_metrics) = false /\
  relocateLiveEntry append_all 0 fresh_survivor LOG_ENTRY_TYPE_OBJECT big_entry
    {| current := Some nearly_full; sealed := []; acquired := 1;
       attempts := 0; pass_metrics := zero_metrics |}
  = {| current := Some (write fresh_survivor LOG_ENTRY_TYPE_OBJECT big_entry);
       sealed := [nearly_full]; acquired := 2; attempts := 2;
       pass_metrics :=
         {| totalRelocationCallbacks := 2;
            relocationCallbackTicks := 0;
            totalRelocationAppends := 1;
            relocationAppendTicks := 0;
            otherCounters := tt |} |}.
Proof. split; vm_compute; reflexivity. Qed.

(** Scenario B: the entries come out oldest first. *)
Lemma scenario_B_sorted :
  map timestamp (sortEntriesByTimestamp scenario_B)
  = [100; 101; 102; 200; 201; 202].
Proof. reflexivity. Qed.

Lemma relocateEntry_metrics_witness :
  totalRelocationCallbacks
    (metrics_after (relocateEntry (relocate decline_all) 0
                      LOG_ENTRY_TYPE_OBJECT big_entry (Some nearly_full)
                      zero_metrics)) = 1 /\
  totalRelocationAppends
    (metrics_after (relocateEntry (relocate decline_all) 0
                      LOG_ENTRY_TYPE_OBJECT big_entry (Some nearly_full)
                      zero_metrics)) = 1.
Proof.
  destruct (relocateEntry_metrics (relocate decline_all) 0
              LOG_ENTRY_TYPE_OBJECT big_entry (Some nearly_full) zero_metrics)
    as (_ & Hc & _ & Ha & _).
  - cbn. lia.
  - cbn. lia.
  - split.
    + apply Hc. cbn. lia.
    + apply Ha; [reflexivity | cbn; lia].
Defined.

(** * Further properties *)

(** ** Traversal of a segment *)

Lemma load_range (m : memory) (n : nat) :
  byte_memory m ->
  forall a v, load m a n = Some v -> 0 <= v < 256 ^ Z.of_nat n.
Proof.
  intros Hm. induction n as [|n IH]; intros a v.
  - cbn. intros [= <-]. lia.
  - cbn [load]. destruct (m a) as [b|] eqn:Eb; [|discriminate].
    destruct (load m (a + 1) n) as [hi|] eqn:Ehi; [|discriminate].
    intros Hv. apply Hm in Eb. apply IH in Ehi.
    assert (Ev : v = b + 256 * hi) by congruence.
    rewrite Nat2Z.inj_succ, Z.pow_succ_r by lia.
    set (P := 256 ^ Z.of_nat n) in *. lia.
Qed.

Section Traversal.
Context {L : SegmentLayout}.
Variable m : memory.

Lemma next_n_reachable (buffer len : Z) (n : nat) :
  forall it it',
  reachable m buffer len it -> next_n m n it = Ok it' ->
  reachable m buffer len it'.
Proof.
  induction n as [|n IH]; intros it it' Hr; cbn [next_n].
  - now intros [= <-].
  - destruct (next m it) as [it1| |] eqn:E; cbn [bind]; try discriminate.
    apply IH. now apply reach_next with it.
Qed.

Lemma iterate_reachable (buffer len : Z) (n : nat) (it : SegmentIterator) :
  iterate m buffer len n = Ok it -> reachable m buffer len it.
Proof.
  unfold iterate.
  destruct (SegmentIterator_buffer m buffer len) as [it0| |] eqn:E;
    cbn [bind]; try discriminate.
  apply next_n_reachable. now apply reach_buffer.
Qed.

(** What a successful construction has checked. *)
Lemma CommonConstructor_checked (it it' : SegmentIterator) :
  CommonConstructor m it = Ok it' ->
  sizeof_SegmentEntry + sizeof_SegmentHeader <= segmentCapacity it /\
  entry_type m (baseAddress it) = Ok LOG_ENTRY_TYPE_SEGHEADER /\
  entry_length m (baseAddress it) = Ok sizeof_SegmentHeader /\
  isEntryValid m it (baseAddress it) = Ok true /\
  currentEntry it' = baseAddress it /\
  firstEntry it' = baseAddress it /\
  baseAddress it' = baseAddress it /\
  segmentCapacity it' = segmentCapacity it /\
  sawFooter it' = sawFooter it /\
  type it' = LOG_ENTRY_TYPE_SEGHEADER /\
  length it' = sizeof_SegmentHeader /\
  blobPtr it' = wrap64 (baseAddress it + sizeof_SegmentEntry).
Proof.
  unfold CommonConstructor.
  destruct (_ <? _) eqn:E0; [discriminate|]. apply Z.ltb_ge in E0.
  step_as t Et. destruct (Z.eqb_spec t LOG_ENTRY_TYPE_SEGHEADER) as [->|];
    cbn [negb]; [|discriminate].
  step_as l El. destruct (Z.eqb_spec l sizeof_SegmentHeader) as [->|];
    cbn [negb]; [|discriminate].
  step_as v Ev. destruct v; cbn [negb]; [|discriminate].
  step_as c Ec. destruct (negb _); [discriminate|].
  intros [= <-]. fields. repeat split; auto.
Qed.

(** The three ways in which [next] returns from an iterator that is on an
    entry. *)
Lemma next_cases (it it' : SegmentIterator) :
  currentEntry it <> NULL -> next m it = Ok it' ->
  exists t l,
    entry_type m (currentEntry it) = Ok t /\
    ((t = LOG_ENTRY_TYPE_SEGFOOTER /\
      it' = set_sawFooter (set_fields it LOG_ENTRY_TYPE_INVALID 0 NULL) true)
     \/
     (t <> LOG_ENTRY_TYPE_SEGFOOTER /\
      entry_length m (currentEntry it) = Ok l /\
      let entry := wrap64 (currentEntry it + sizeof_SegmentEntry + l) in
      (isEntryValid m it entry = Ok false /\
       it' = set_currentEntry
               (set_fields it LOG_ENTRY_TYPE_INVALID 0 NULL) NULL)
      \/
      (isEntryValid m it entry = Ok true /\
       exists t' l',
         entry_type m entry = Ok t' /\
         entry_length m entry = Ok l' /\
         it' = set_currentEntry
                 (set_fields it t' l' (wrap64 (entry + sizeof_SegmentEntry)))
                 entry))).
Proof.
  intros Hc. unfold next. fields. apply Z.eqb_neq in Hc. rewrite Hc.
  step_as t Et. destruct (Z.eqb_spec t LOG_ENTRY_TYPE_SEGFOOTER) as [->|Nt].
  - intros [= <-]. exists LOG_ENTRY_TYPE_SEGFOOTER, 0. auto.
  - step_as l El. step_as v Ev.
    assert (Ev' : isEntryValid m it
                    (wrap64 (currentEntry it + sizeof_SegmentEntry + l))
                  = Ok v).
    { rewrite <- Ev. symmetry. now apply isEntryValid_same_buffer. }
    destruct v; cbn [negb].
    + step_as t' Et'. step_as l' El'. intros [= <-].
      exists t, l. split; [reflexivity|]. right.
      repeat split; auto. right. split; [exact Ev'|].
      exists t', l'. auto.
    + intros [= <-]. exists t, l. split; [reflexivity|]. right.
      repeat split; auto.
Qed.

Lemma next_keeps_done (buffer len : Z) (it it' : SegmentIterator) :
  reachable m buffer len it -> done_state it -> next m it = Ok it' ->
  done_state it'.
Proof.
  intros Hr Hd Hn.
  destruct (Z.eq_dec (currentEntry it) NULL) as [E|E].
  - revert Hn. unfold next. fields. rewrite E. cbn.
    intros [= <-]. right. exact E.
  - destruct Hd as [Hf|Hd]; [|contradiction].
    destruct (reachable_footer m buffer len it Hr Hf) as [H|H];
      [contradiction|].
    destruct (next_cases it it' E Hn) as (t & l & Et & Hcase).
    rewrite H in Et. injection Et as <-.
    destruct Hcase as [[_ ->] | [Nt _]]; [|contradiction].
    left. reflexivity.
Qed.

(** When [next] ends the iteration because the following entry is invalid,
    the iterator is left with a null cursor and no footer seen, and a call
    of [isDone] in that state does not return. *)
Lemma isDone_after_invalid_next (it it' : SegmentIterator) :
  0 < baseAddress it ->
  sawFooter it = false ->
  currentEntry it <> NULL ->
  next m it = Ok it' ->
  currentEntry it' = NULL ->
  isDone m it' = Throw \/ isDone m it' = Fault.
Proof.
  intros Hb Hf Hc Hn Hnull.
  destruct (next_cases it it' Hc Hn) as (t & l & Et & Hcase).
  destruct Hcase as [[_ E] | (Nt & El & [[_ E] | [Hv (t' & l' & _ & _ & E)]])];
    rewrite E in *; fields.
  - contradiction.
  - apply isDone_null_cursor; fields; auto.
  - apply isEntryValid_true_start in Hv. rewrite Hnull in Hv.
    unfold NULL in Hv. lia.
Qed.

End Traversal.

Section TraversalSteps.
Context {L : SegmentLayout}.
Variable m : memory.

Lemma next_advance (it : SegmentIterator) (t l t' l' : Z) :
  currentEntry it <> NULL ->
  entry_type m (currentEntry it) = Ok t ->
  t <> LOG_ENTRY_TYPE_SEGFOOTER ->
  entry_length m (currentEntry it) = Ok l ->
  isEntryValid m it (wrap64 (currentEntry it + sizeof_SegmentEntry + l))
    = Ok true ->
  entry_type m (wrap64 (currentEntry it + sizeof_SegmentEntry + l)) = Ok t' ->
  entry_length m (wrap64 (currentEntry it + sizeof_SegmentEntry + l)) = Ok l' ->
  next m it =
    Ok (set_currentEntry
          (set_fields it t' l'
             (wrap64 (wrap64 (currentEntry it + sizeof_SegmentEntry + l)
                      + sizeof_SegmentEntry)))
          (wrap64 (currentEntry it + sizeof_SegmentEntry + l))).
Proof.
  intros Hc Ht Hnf Hl Hv Ht' Hl'. unfold next. fields.
  apply Z.eqb_neq in Hc. rewrite Hc, Ht. cbn [bind].
  apply Z.eqb_neq in Hnf. rewrite Hnf, Hl. cbn [bind].
  match goal with
  | |- context [isEntryValid m ?i ?e] =>
      change (isEntryValid m i e) with (isEntryValid m it e)
  end.
  rewrite Hv. cbn [bind negb]. rewrite Ht', Hl'. reflexivity.
Qed.

Lemma next_at_footer (it : SegmentIterator) :
  currentEntry it <> NULL ->
  entry_type m (currentEntry it) = Ok LOG_ENTRY_TYPE_SEGFOOTER ->
  next m it =
    Ok (set_sawFooter (set_fields it LOG_ENTRY_TYPE_INVALID 0 NULL) true).
Proof.
  intros Hc Ht. unfold next. fields.
  apply Z.eqb_neq in Hc. rewrite Hc, Ht. cbn [bind].
  now rewrite Z.eqb_refl.
Qed.

Lemma next_n_last (n : nat) :
  forall it, next_n m (S n) it = (it' <- next_n m n it ;; next m it').
Proof.
  induction n as [|n IH]; intros it.
  - cbn. now destruct (next m it).
  - change (next_n m (S (S n)) it)
      with (it1 <- next m it ;; next_n m (S n) it1).
    change (next_n m (S n) it) with (it1 <- next m it ;; next_n m n it1).
    destruct (next m it) as [it1| |]; cbn [bind]; auto.
Qed.

End TraversalSteps.

(** *** Entries stay inside the buffer, and iteration ends *)

Section Bounded.
Context {L : SegmentLayout}.
Variable m : memory.
Variables buffer len : Z.
Hypothesis layout_ok : LayoutOk L.
Hypothesis bytes : byte_memory m.
Hypothesis buffer_not_null : 0 < buffer.
Hypothesis address_space :
  buffer + len + 256 ^ Z.of_nat width_length + sizeof_SegmentEntry <= 2 ^ 64.

Lemma entry_length_range (e l : Z) :
  entry_length m e = Ok l -> 0 <= l < 256 ^ Z.of_nat width_length.
Proof.
  unfold entry_length, deref.
  destruct (load m _ _) as [v|] eqn:E; [|discriminate].
  intros [= <-]. exact (load_range m _ bytes _ _ E).
Qed.

Lemma valid_within (it : SegmentIterator) (e : Z) :
  baseAddress it = buffer -> segmentCapacity it = len ->
  0 <= len -> e <= buffer + len ->
  isEntryValid m it e = Ok true ->
  exists l,
    entry_length m e = Ok l /\ 0 <= l /\ buffer <= e /\
    e + sizeof_SegmentEntry + l <= buffer + len.
Proof.
  intros Hb Hc Hlen He. unfold isEntryValid. rewrite Hb, Hc.
  destruct (entry_length m e) as [l| |] eqn:El; cbn [bind]; try discriminate.
  pose proof (entry_length_range e l El) as Hl.
  destruct layout_ok as [_ [Hl1 Hl2] _].
  assert (0 < 256 ^ Z.of_nat width_length) by (apply Z.pow_pos_nonneg; lia).
  destruct (e <? buffer) eqn:E1; [discriminate|]. apply Z.ltb_ge in E1.
  rewrite !wrap64_small by lia.
  destruct (_ >? _) eqn:E2; [discriminate|]. intros _.
  exists l. repeat split; try lia.
Qed.

Lemma reachable_within (it : SegmentIterator) :
  reachable m buffer len it ->
  sizeof_SegmentEntry + sizeof_SegmentHeader <= len /\
  (currentEntry it <> NULL ->
   exists l,
     entry_length m (currentEntry it) = Ok l /\ 0 <= l /\
     buffer <= currentEntry it /\
     currentEntry it + sizeof_SegmentEntry + l <= buffer + len).
Proof.
  destruct layout_ok as [_ [Hl1 Hl2] [Hc1 Hc2]].
  assert (Hnew : forall ident it',
            CommonConstructor m (initialised buffer len ident) = Ok it' ->
            sizeof_SegmentEntry + sizeof_SegmentHeader <= len /\
            (currentEntry it' <> NULL ->
             exists l,
               entry_length m (currentEntry it') = Ok l /\ 0 <= l /\
               buffer <= currentEntry it' /\
               currentEntry it' + sizeof_SegmentEntry + l <= buffer + len)).
  { intros ident it' H. apply CommonConstructor_checked in H. cbn in H.
    destruct H as (Hsz & _ & _ & Hv & Hcur & _).
    split; [exact Hsz|]. intros _. rewrite Hcur.
    apply (valid_within (initialised buffer len ident));
      try reflexivity; try lia; assumption. }
  intros Hr. induction Hr as [it H | seg it <- <- H | it it' Hr IH H].
  - exact (Hnew _ _ H).
  - exact (Hnew _ _ H).
  - destruct IH as [Hsz IH]. split; [exact Hsz|].
    pose proof (reachable_inv m buffer len it buffer_not_null Hr) as Hinv.
    destruct (Z.eq_dec (currentEntry it) NULL) as [E|E].
    { revert H. unfold next. fields. rewrite E. cbn.
      intros [= <-]. fields. contradiction. }
    destruct (IH E) as (l0 & El0 & Hl0 & Hlo & Hhi).
    destruct (next_cases m it it' E H) as (t & l & Et & Hcase).
    destruct Hcase as [[_ ->] | (Nt & El & [[_ ->] | [Hv (t' & l' & _ & _ & ->)]])];
      fields.
    + intros _. exists l0. auto.
    + contradiction.
    + intros _. rewrite El0 in El. injection El as <-.
      rewrite wrap64_small in * by lia.
      apply (valid_within it); try lia; try assumption.
      * exact (inv_base _ _ _ _ Hinv).
      * exact (inv_capacity _ _ _ _ Hinv).
Qed.

(** X1. While [isDone] returns false, the four queries return the type and
    the length stored in the entry under the cursor, the address just after
    its header and the distance of that address from the start of the
    buffer; the entry, header and payload, lies inside the buffer. *)
Theorem queries_within_buffer (it : SegmentIterator) :
  reachable m buffer len it ->
  isDone m it = Ok false ->
  exists t l,
    entry_type m (currentEntry it) = Ok t /\
    entry_length m (currentEntry it) = Ok l /\
    getType it = Ok t /\
    getLength it = Ok l /\
    getPointer it = Ok (currentEntry it + sizeof_SegmentEntry) /\
    getOffset it = Ok (currentEntry it + sizeof_SegmentEntry - buffer) /\
    buffer <= currentEntry it /\
    0 <= l /\
    currentEntry it + sizeof_SegmentEntry + l <= buffer + len.
Proof.
  intros Hr Hd.
  destruct (queries_while_not_done m buffer len it buffer_not_null Hr Hd)
    as (Ht & Hl & Hp & Ho).
  destruct (reachable_within it Hr) as [Hsz Hw].
  assert (Hc : currentEntry it <> NULL).
  { intros E. unfold getType in Ht. rewrite E in Ht. cbn in Ht.
    unfold entry_type, deref in Ht. destruct (load _ _ _); discriminate. }
  destruct (Hw Hc) as (l & El & Hl0 & Hlo & Hhi).
  destruct layout_ok as [_ [Hl1 Hl2] _].
  assert (0 < 256 ^ Z.of_nat width_length) by (apply Z.pow_pos_nonneg; lia).
  rewrite El in Hl.
  destruct (entry_type m (currentEntry it)) as [t| |] eqn:Et.
  - exists t, l.
    rewrite (wrap64_small (currentEntry it + sizeof_SegmentEntry)) in Hp, Ho
      by lia.
    rewrite wrap64_small in Ho by lia. repeat split; auto; lia.
  - unfold getType in Ht. apply Z.eqb_neq in Hc. rewrite Hc in Ht.
    discriminate.
  - unfold getType in Ht. apply Z.eqb_neq in Hc. rewrite Hc in Ht.
    discriminate.
Qed.

Hypothesis header_not_empty : 0 < sizeof_SegmentEntry.

Lemma iteration_measure (n : nat) :
  forall it it',
  reachable m buffer len it ->
  done_state it \/ buffer + len - currentEntry it <= Z.of_nat n ->
  next_n m n it = Ok it' ->
  done_state it'.
Proof.
  induction n as [|n IH]; intros it it' Hr Hm.
  - cbn. intros [= <-]. destruct Hm as [Hd|Hm]; [exact Hd|].
    destruct (Z.eq_dec (currentEntry it) NULL) as [E|E]; [now right|].
    destruct (reachable_within it Hr) as [_ Hw].
    destruct (Hw E) as (l & _ & Hl & _ & Hhi). lia.
  - cbn [next_n]. destruct (next m it) as [it1| |] eqn:En; cbn [bind];
      try discriminate.
    apply IH; [now apply reach_next with it|].
    assert (Hdec : done_state it \/ ~ done_state it).
    { unfold done_state. destruct (sawFooter it);
        destruct (Z.eq_dec (currentEntry it) NULL); intuition congruence. }
    destruct Hdec as [Hd|Hnd].
    { left. now apply (next_keeps_done m buffer len it). }
    destruct Hm as [Hd|Hm]; [contradiction|].
    assert (E : currentEntry it <> NULL) by (intros E; apply Hnd; now right).
    destruct (reachable_within it Hr) as [_ Hw].
    destruct (Hw E) as (l0 & El0 & Hl0 & Hlo & Hhi).
    destruct (next_cases m it it1 E En) as (t & l & Et & Hcase).
    destruct Hcase as [[_ ->] | (Nt & El & [[_ ->] | [Hv (t' & l' & _ & _ & ->)]])].
    + left. left. reflexivity.
    + left. right. reflexivity.
    + right. fields. rewrite El0 in El. injection El as <-.
      rewrite wrap64_small by lia. lia.
Qed.

(** X2. Iteration is bounded by the length of the buffer: whatever the
    bytes of the segment are, an iterator on which [next] has been called at
    least as many times as the buffer has bytes, and has returned each
    time, is in the done state. *)
Theorem iteration_ends (it it' : SegmentIterator) (n : nat) :
  reachable m buffer len it ->
  (Z.to_nat len <= n)%nat ->
  next_n m n it = Ok it' ->
  done_state it'.
Proof.
  intros Hr Hn. apply iteration_measure; [exact Hr|].
  destruct (Z.eq_dec (currentEntry it) NULL) as [E|E]; [left; now right|].
  right. destruct (reachable_within it Hr) as [Hsz Hw].
  destruct (Hw E) as (l & _ & _ & Hlo & _). lia.
Qed.

End Bounded.

(** *** A segment whose entries are laid out back to back *)

Section LaidOut.
Context {L : SegmentLayout}.
Variable m : memory.
Variables buffer len : Z.
Hypothesis header_size : 0 <= sizeof_SegmentEntry.
Hypothesis buffer_not_null : 0 < buffer.
Hypothesis address_space : buffer + len < 2 ^ 64.

Lemma segment_end_ge (es : list (Z * Z)) :
  forall a, laid_out m a es -> a <= segment_end a es.
Proof.
  induction es as [|[t l] es IH]; intros a; cbn [laid_out segment_end].
  - lia.
  - intros (_ & _ & Hl & H). apply IH in H. lia.
Qed.

Lemma laid_out_nth (k : nat) :
  forall es a t l,
  laid_out m a es -> nth_error es k = Some (t, l) ->
  entry_type m (entry_address a es k) = Ok t /\
  entry_length m (entry_address a es k) = Ok l /\
  0 <= l /\
  a <= entry_address a es k /\
  entry_address a es k + sizeof_SegmentEntry + l <= segment_end a es.
Proof.
  induction k as [|k IH]; intros [|[t0 l0] es] a t l; cbn [nth_error];
    try discriminate; cbn [laid_out entry_address segment_end].
  - intros (Ht & Hl & Hl0 & H) [= <- <-]. apply segment_end_ge in H.
    repeat split; auto; lia.
  - intros (Ht & Hl & Hl0 & H) Hk.
    destruct (IH es _ t l H Hk) as (H1 & H2 & H3 & H4 & H5).
    repeat split; auto; lia.
Qed.

(** [k] calls of [next] take an iterator that is on the first of the
    entries [es] to entry number [k], if no earlier entry is a footer. *)
Lemma walk (k : nat) :
  forall es a it t l,
  buffer <= a ->
  laid_out m a es ->
  segment_end a es <= buffer + len ->
  (forall i ti li, (i < k)%nat -> nth_error es i = Some (ti, li) ->
                   ti <> LOG_ENTRY_TYPE_SEGFOOTER) ->
  nth_error es k = Some (t, l) ->
  currentEntry it = a ->
  baseAddress it = buffer -> segmentCapacity it = len ->
  sawFooter it = false ->
  (forall t0 l0, nth_error es 0 = Some (t0, l0) ->
                 type it = t0 /\ length it = l0 /\
                 blobPtr it = a + sizeof_SegmentEntry) ->
  exists it',
    next_n m k it = Ok it' /\
    currentEntry it' = entry_address a es k /\
    baseAddress it' = buffer /\ segmentCapacity it' = len /\
    sawFooter it' = false /\
    type it' = t /\ length it' = l /\
    blobPtr it' = entry_address a es k + sizeof_SegmentEntry.
Proof.
  induction k as [|k IH]; intros es a it t l Ha Hlay Hend Hnf Hk Hc Hb Hcap Hsf H0.
  - exists it. destruct es as [|[t0 l0] es]; [discriminate|].
    destruct (H0 _ _ Hk) as (H1 & H2 & H3). cbn. repeat split; auto.
  - destruct es as [|[t0 l0] es]; [discriminate|].
    cbn [nth_error] in Hk. cbn [laid_out] in Hlay.
    destruct Hlay as (Ht0 & Hl0 & Hl0' & Hlay).
    cbn [segment_end] in Hend.
    destruct es as [|[t1 l1] es]; [destruct k; discriminate|].
    pose proof Hlay as Hlay1. cbn [laid_out] in Hlay1.
    destruct Hlay1 as (Ht1 & Hl1 & Hl1' & Hlay2).
    pose proof (segment_end_ge _ _ Hlay2) as Hge.
    cbn [segment_end] in Hend.
    set (a1 := a + sizeof_SegmentEntry + l0) in *.
    assert (Hw : wrap64 (currentEntry it + sizeof_SegmentEntry + l0) = a1).
    { rewrite Hc. apply wrap64_small. unfold a1. lia. }
    assert (Hnext : next m it =
                    Ok (set_currentEntry
                          (set_fields it t1 l1 (a1 + sizeof_SegmentEntry)) a1)).
    { rewrite (next_advance m it t0 l0 t1 l1).
      - rewrite Hw. rewrite (wrap64_small (a1 + sizeof_SegmentEntry)) by lia.
        reflexivity.
      - rewrite Hc. unfold NULL. lia.
      - now rewrite Hc.
      - apply (Hnf O t0 l0); [lia | reflexivity].
      - now rewrite Hc.
      - rewrite Hw. rewrite (isEntryValid_cases m it a1 l1 Hl1), Hb, Hcap.
        destruct (a1 <? buffer) eqn:E1; [unfold a1 in E1; lia|].
        rewrite !wrap64_small by lia.
        destruct (_ >? _) eqn:E2; [lia | reflexivity].
      - now rewrite Hw.
      - now rewrite Hw. }
    destruct (IH ((t1, l1) :: es) a1
                (set_currentEntry
                   (set_fields it t1 l1 (a1 + sizeof_SegmentEntry)) a1) t l)
      as (it' & Hn & Hrest); fields; auto.
    + unfold a1. lia.
    + intros i ti li Hi Hnth. apply (Hnf (S i) ti li); [lia | exact Hnth].
    + intros t0' l0' [= <- <-]. auto.
    + exists it'. split; [|exact Hrest].
      cbn [next_n]. rewrite Hnext. exact Hn.
Qed.

(** X3. Over a segment whose entries are laid out back to back within the
    buffer, [k] calls of [next] after a successful construction bring the
    iterator to entry number [k]: the queries return its type, its length,
    the address and the offset of its payload, and [isDone] returns false.
    If that entry is the footer, one more call of [next] makes [isDone]
    return true. *)
Theorem iterate_visits_entries (es : list (Z * Z)) (k : nat) (t l : Z)
    (it0 : SegmentIterator) :
  SegmentIterator_buffer m buffer len = Ok it0 ->
  laid_out m buffer es ->
  segment_end buffer es <= buffer + len ->
  (forall i ti li, (i < k)%nat -> nth_error es i = Some (ti, li) ->
                   ti <> LOG_ENTRY_TYPE_SEGFOOTER) ->
  nth_error es k = Some (t, l) ->
  exists it,
    iterate m buffer len k = Ok it /\
    currentEntry it = entry_address buffer es k /\
    getType it = Ok t /\
    getLength it = Ok l /\
    getPointer it = Ok (entry_address buffer es k + sizeof_SegmentEntry) /\
    getOffset it =
      Ok (entry_address buffer es k + sizeof_SegmentEntry - buffer) /\
    isDone m it = Ok false /\
    (t = LOG_ENTRY_TYPE_SEGFOOTER ->
     exists it',
       iterate m buffer len (S k) = Ok it' /\
       isDone m it' = Ok true).
Proof.
  intros Hnew Hlay Hend Hnf Hk.
  pose proof Hnew as Hchk. unfold SegmentIterator_buffer in Hchk.
  apply CommonConstructor_checked in Hchk. cbn in Hchk.
  destruct Hchk as (Hsz & Ht0 & Hl0 & Hv0 & Hcur & _ & Hb & Hcap & Hsf & Hty
                    & Hlen & Hblob).
  destruct (laid_out_nth k es buffer t l Hlay Hk) as (Et & El & Hl & Hlo & Hhi).
  destruct (walk k es buffer it0 t l) as (it & Hn & Hc & Hb' & Hcap' & Hsf'
                                          & Hty' & Hlen' & Hblob');
    auto; try lia.
  { intros t0 l0 H0. destruct es as [|[t0' l0'] es]; [discriminate|].
    injection H0 as -> ->. cbn [laid_out] in Hlay.
    destruct Hlay as (Ht & Hl' & Hl0' & Hrest).
    pose proof (segment_end_ge _ _ Hrest) as Hge. cbn [segment_end] in Hend.
    rewrite Ht in Ht0. rewrite Hl' in Hl0.
    injection Ht0 as ->. injection Hl0 as ->.
    rewrite wrap64_small in Hblob by lia. auto. }
  assert (Hnn : currentEntry it <> NULL) by (rewrite Hc; unfold NULL; lia).
  assert (Hit : iterate m buffer len k = Ok it).
  { unfold iterate. rewrite Hnew. exact Hn. }
  exists it. split; [exact Hit|]. split; [exact Hc|].
  unfold getType, getLength, getPointer, getOffset.
  pose proof Hnn as Hnb. apply Z.eqb_neq in Hnb.
  rewrite Hnb, Hty', Hlen', Hblob', Hb'.
  rewrite wrap64_small by lia.
  repeat split; try reflexivity.
  - apply (isDone_false_on_entry m buffer len); auto.
    now apply iterate_reachable with k.
  - intros ->. eexists. split.
    + unfold iterate. rewrite Hnew. cbn [bind]. rewrite next_n_last, Hn.
      cbn [bind]. apply next_at_footer; [exact Hnn|]. now rewrite Hc.
    + apply isDone_sawFooter. reflexivity.
Qed.

End LaidOut.

(** *** What [isDone] answers, and the read beyond the last entry *)

Section Outcomes.
Context {L : SegmentLayout}.
Variable m : memory.

(** X4. On an iterator obtained from a constructor by calls of [next],
    [isDone] returns true exactly when the footer has been seen and false
    exactly when the iterator is on an entry; in the remaining state, a
    null cursor without a footer, it does not return. *)
Theorem isDone_outcomes (buffer len : Z) (it : SegmentIterator) :
  0 < buffer ->
  reachable m buffer len it ->
  (isDone m it = Ok true <-> sawFooter it = true) /\
  (isDone m it = Ok false <->
   sawFooter it = false /\ currentEntry it <> NULL) /\
  (sawFooter it = false -> currentEntry it = NULL ->
   isDone m it = Throw \/ isDone m it = Fault).
Proof.
  intros Hb Hr.
  pose proof (reachable_inv m buffer len it Hb Hr) as Hinv.
  destruct (sawFooter it) eqn:Hf.
  - rewrite (isDone_sawFooter m it Hf).
    repeat split; try discriminate; auto.
    intros [H _]. discriminate.
  - destruct (Z.eq_dec (currentEntry it) NULL) as [E|E].
    + assert (H : isDone m it = Throw \/ isDone m it = Fault).
      { apply isDone_null_cursor; auto. now rewrite (inv_base _ _ _ _ Hinv). }
      repeat split; try discriminate; auto.
      * destruct H as [H|H]; rewrite H; discriminate.
      * destruct H as [H|H]; rewrite H in *; discriminate.
      * intros [_ H']. contradiction.
    + rewrite (isDone_false_on_entry m buffer len it Hb Hr Hf E).
      repeat split; try discriminate; auto. contradiction.
Qed.

(** X5. [next] reads the length field of the following entry before it
    tests whether that entry lies in the buffer.  When the current entry,
    not a footer, ends exactly where the buffer ends, that field is outside
    the buffer: if nothing is readable there the call is an invalid access,
    and if a length can be read there the call returns with a null
    cursor. *)
Theorem next_reads_beyond_buffer (it : SegmentIterator) (t l : Z) :
  0 < baseAddress it -> 0 <= segmentCapacity it ->
  baseAddress it + segmentCapacity it < 2 ^ 64 ->
  0 <= offsetof_length -> (width_length <> 0)%nat ->
  currentEntry it <> NULL ->
  entry_type m (currentEntry it) = Ok t ->
  t <> LOG_ENTRY_TYPE_SEGFOOTER ->
  entry_length m (currentEntry it) = Ok l ->
  currentEntry it + sizeof_SegmentEntry + l
    = baseAddress it + segmentCapacity it ->
  (unreadable_from m (baseAddress it + segmentCapacity it) ->
   next m it = Fault) /\
  (forall l',
     entry_length m (baseAddress it + segmentCapacity it) = Ok l' ->
     0 < sizeof_SegmentEntry + l' ->
     baseAddress it + segmentCapacity it + sizeof_SegmentEntry + l' <= 2 ^ 64 ->
     next m it =
       Ok (set_currentEntry
             (set_fields it LOG_ENTRY_TYPE_INVALID 0 NULL) NULL)).
Proof.
  intros Hb Hcap Htop Hoff Hw Hc Ht Hnf Hl Hend.
  assert (He : wrap64 (currentEntry it + sizeof_SegmentEntry + l)
               = baseAddress it + segmentCapacity it).
  { rewrite Hend. apply wrap64_small. lia. }
  assert (Hnext : next m it =
            v <- isEntryValid m it (baseAddress it + segmentCapacity it) ;;
            if negb v
            then Ok (set_currentEntry
                       (set_fields it LOG_ENTRY_TYPE_INVALID 0 NULL) NULL)
            else
              t' <- entry_type m (baseAddress it + segmentCapacity it) ;;
              len' <- entry_length m (baseAddress it + segmentCapacity it) ;;
              Ok (set_currentEntry
                    (set_fields
                       (set_fields it LOG_ENTRY_TYPE_INVALID 0 NULL) t' len'
                       (wrap64 (baseAddress it + segmentCapacity it
                                + sizeof_SegmentEntry)))
                    (baseAddress it + segmentCapacity it))).
  { unfold next. fields. apply Z.eqb_neq in Hc. rewrite Hc, Ht. cbn [bind].
    apply Z.eqb_neq in Hnf. rewrite Hnf, Hl. cbn [bind]. rewrite He.
    reflexivity. }
  split.
  - intros Hun. rewrite Hnext. unfold isEntryValid, entry_length.
    rewrite deref_unmapped; [reflexivity | apply Hun; lia | exact Hw].
  - intros l' Hl' Hpos Hfit. rewrite Hnext.
    rewrite (isEntryValid_cases m it _ l' Hl').
    destruct (_ <? baseAddress it) eqn:E1; [lia|].
    rewrite !wrap64_small by lia.
    destruct (_ >? _) eqn:E2; [reflexivity | lia].
Qed.

End Outcomes.

(** *** Instances on the concrete segments *)

Lemma memory_of_buffer_bytes (base : Z) (bytes : list Z) :
  forallb (fun b => (0 <=? b) && (b <? 256)) bytes = true ->
  byte_memory (memory_of_buffer base bytes).
Proof.
  intros H a b. unfold memory_of_buffer.
  destruct (_ && _); [|discriminate].
  intros Hn. apply nth_error_In in Hn.
  rewrite forallb_forall in H. apply H in Hn. lia.
Qed.

Lemma memory_of_buffer_unreadable (base : Z) (bytes : list Z) :
  unreadable_from (memory_of_buffer base bytes)
    (base + Z.of_nat (List.length bytes)).
Proof.
  intros a Ha. unfold memory_of_buffer.
  replace (a <? _) with false by (symmetry; apply Z.ltb_ge; lia).
  now rewrite andb_false_r.
Qed.

Lemma log_on_object_reachable :
  reachable log_memory log_base 53 log_on_object.
Proof. apply iterate_reachable with 1%nat. vm_compute. reflexivity. Qed.

Lemma queries_within_buffer_witness :
  exists t l,
    getType log_on_object = Ok t /\
    getLength log_on_object = Ok l /\
    getOffset log_on_object = Ok (4122 + 10 - log_base) /\
    4122 + 10 + l <= log_base + 53.
Proof.
  destruct (queries_within_buffer log_memory log_base 53)
    with (it := log_on_object)
    as (t & l & _ & _ & Ht & Hl & _ & Ho & _ & _ & Hin).
  - exact spec_layout_ok.
  - apply memory_of_buffer_bytes. vm_compute. reflexivity.
  - reflexivity.
  - vm_compute. discriminate.
  - exact log_on_object_reachable.
  - vm_compute. reflexivity.
  - exists t, l. auto.
Defined.

Lemma iteration_ends_witness : done_state log_done.
Proof.
  apply (iteration_ends log_memory log_base 53)
    with (it := log_on_object) (n := 53%nat).
  - exact spec_layout_ok.
  - apply memory_of_buffer_bytes. vm_compute. reflexivity.
  - reflexivity.
  - vm_compute. discriminate.
  - reflexivity.
  - exact log_on_object_reachable.
  - vm_compute. lia.
  - vm_compute. reflexivity.
Defined.

Lemma iterate_visits_entries_witness :
  exists it,
    iterate log_memory log_base 53 2 = Ok it /\
    getType it = Ok LOG_ENTRY_TYPE_SEGFOOTER /\
    getLength it = Ok 4 /\
    getOffset it = Ok 49 /\
    isDone log_memory it = Ok false /\
    exists it', iterate log_memory log_base 53 3 = Ok it' /\
                isDone log_memory it' = Ok true.
Proof.
  destruct (iterate_visits_entries log_memory log_base 53)
    with (es := log_entries) (k := 2%nat) (t := 1) (l := 4)
         (it0 := initialised_log)
    as (it & Hit & _ & Ht & Hl & _ & Ho & Hd & Hfoot).
  - cbn. lia.
  - reflexivity.
  - vm_compute. reflexivity.
  - vm_compute. reflexivity.
  - unfold log_entries. cbn [laid_out].
    repeat split; try lia.
  - vm_compute. discriminate.
  - intros [|[|i]] ti li Hi; [| |lia]; cbn; intros [= <- <-]; discriminate.
  - reflexivity.
  - exists it. repeat split; auto.
Defined.

(** C4. The source does not end the iteration cleanly on an invalid entry.
    On the 36-byte segment the entry after the header starts inside the
    buffer and ends one byte past it: [isEntryValid] finds it invalid
    without throwing and [next] returns with a null cursor, as the
    specification has it; but [isDone], which a traversal consults next,
    then reads the length of an entry through the null cursor, an invalid
    access, instead of reporting the end (the defect of C1).  On the
    26-byte segment that holds only the header entry, the following entry
    would start at the end of the buffer; [next] reads its length field
    before any bounds test, outside the buffer, and the call itself is an
    invalid access. *)
Theorem invalid_entry_does_not_end_cleanly :
  entry_length overlong_memory 4122 = Ok 1 /\
  overlong_base <= 4122 /\
  overlong_base + 36 - 1 < 4122 + sizeof_SegmentEntry + 1 - 1 /\
  isEntryValid overlong_memory overlong_new 4122 = Ok false /\
  next overlong_memory overlong_new = Ok overlong_ended /\
  currentEntry overlong_ended = NULL /\
  isDone overlong_memory overlong_ended = Fault /\
  SegmentIterator_buffer header_only_memory 4096 26 = Ok header_only_new /\
  next header_only_memory header_only_new = Fault.
Proof. repeat split; vm_compute; solve [reflexivity | discriminate]. Qed.

Lemma isDone_outcomes_witness :
  isDone log_memory log_on_object = Ok false.
Proof.
  apply (isDone_outcomes log_memory log_base 53 log_on_object).
  - reflexivity.
  - exact log_on_object_reachable.
  - split; [reflexivity | discriminate].
Defined.

Lemma next_reads_beyond_buffer_witness :
  next header_only_memory header_only_new = Fault.
Proof.
  apply (next_reads_beyond_buffer header_only_memory header_only_new 0 16).
  - reflexivity.
  - discriminate.
  - reflexivity.
  - discriminate.
  - discriminate.
  - discriminate.
  - reflexivity.
  - discriminate.
  - reflexivity.
  - reflexivity.
  - exact (memory_of_buffer_unreadable 4096 header_only_bytes).
Defined.

(** ** The timestamp comparer as an ordering *)

(** X6. The timestamp comparer is a strict weak ordering, as a sort needs
    it: no entry is before itself, the relation is transitive, and so is
    being tied. *)
Theorem TimestampComparer_strict_weak_order :
  (forall a, TimestampComparer a a = false) /\
  (forall a b, TimestampComparer a b = true -> TimestampComparer b a = false) /\
  (forall a b c,
     TimestampComparer a b = true -> TimestampComparer b c = true ->
     TimestampComparer a c = true) /\
  (forall a b c,
     TimestampComparer a b = false -> TimestampComparer b a = false ->
     TimestampComparer b c = false -> TimestampComparer c b = false ->
     TimestampComparer a c = false /\ TimestampComparer c a = false).
Proof.
  unfold TimestampComparer. repeat split; intros;
    repeat match goal with
           | H : (_ <? _) = true |- _ => apply Z.ltb_lt in H
           | H : (_ <? _) = false |- _ => apply Z.ltb_ge in H
           | |- (_ <? _) = true => apply Z.ltb_lt
           | |- (_ <? _) = false => apply Z.ltb_ge
           end; lia.
Qed.

(** ** Counting over successive relocations *)

Section RelocateEntriesFacts.
Context {R Seg Rest : Type} {ops : RelocatorOps R Seg}.
Variable handler : Z -> list Z -> R -> R.

Lemma successes_bound (results : list bool) :
  0 <= successes results <= Z.of_nat (List.length results).
Proof.
  unfold successes. split; [lia|].
  apply Nat2Z.inj_le. apply filter_length_le.
Qed.

Lemma wrap64_add_l (a b : Z) : wrap64 (wrap64 a + b) = wrap64 (a + b).
Proof. unfold wrap64. apply Zplus_mod_idemp_l. Qed.

(** X7. After any sequence of calls of relocateEntry on one metrics bag,
    short of overflow, [totalRelocationCallbacks] has grown by the number
    of calls and [totalRelocationAppends] by the number of calls that
    returned true, which is never more; [relocationCallbackTicks] has grown
    by the cycles of all callbacks, modulo 2^64; the rest of the bag is as
    before. *)
Theorem relocateEntries_counts (calls : list RelocateCall)
    (metrics : Metrics Rest) :
  0 <= totalRelocationCallbacks metrics ->
  totalRelocationCallbacks metrics + Z.of_nat (List.length calls) < 2 ^ 64 ->
  0 <= totalRelocationAppends metrics ->
  totalRelocationAppends metrics + Z.of_nat (List.length calls) < 2 ^ 64 ->
  0 <= relocationCallbackTicks metrics < 2 ^ 64 ->
  List.length (fst (relocateEntries handler calls metrics))
    = List.length calls /\
  totalRelocationCallbacks (snd (relocateEntries handler calls metrics))
    = totalRelocationCallbacks metrics + Z.of_nat (List.length calls) /\
  totalRelocationAppends (snd (relocateEntries handler calls metrics))
    = totalRelocationAppends metrics
      + successes (fst (relocateEntries handler calls metrics)) /\
  successes (fst (relocateEntries handler calls metrics))
    <= Z.of_nat (List.length calls) /\
  relocationCallbackTicks (snd (relocateEntries handler calls metrics))
    = wrap64 (relocationCallbackTicks metrics + total_cycles calls) /\
  otherCounters (snd (relocateEntries handler calls metrics))
    = otherCounters metrics.
Proof.
  revert metrics.
  induction calls as [|c calls IH]; intros metrics Hc0 Hc Ha0 Ha Ht.
  - cbn. unfold successes. cbn. repeat split; try lia.
    rewrite Z.add_0_r. symmetry. now apply wrap64_small.
  - cbn [relocateEntries].
    set (r := relocateEntry handler (call_cycles c) (call_type c)
                (call_buffer c) (call_survivor c) metrics).
    cbn [List.length] in Hc, Ha. rewrite Nat2Z.inj_succ in Hc, Ha.
    assert (Hcb : totalRelocationCallbacks (metrics_after r)
                  = totalRelocationCallbacks metrics + 1).
    { subst r. unfold relocateEntry. destruct (failed _); cbn;
        apply wrap64_small; lia. }
    assert (Hap : totalRelocationAppends (metrics_after r)
                  = totalRelocationAppends metrics
                    + (if returned r then 1 else 0)).
    { subst r. unfold relocateEntry. destruct (failed _); cbn; [lia|].
      apply wrap64_small. lia. }
    assert (Htk : relocationCallbackTicks (metrics_after r)
                  = wrap64 (relocationCallbackTicks metrics + call_cycles c)).
    { subst r. unfold relocateEntry. destruct (failed _); reflexivity. }
    assert (Hot : otherCounters (metrics_after r) = otherCounters metrics).
    { subst r. unfold relocateEntry. destruct (failed _); reflexivity. }
    destruct (IH (metrics_after r)) as (H1 & H2 & H3 & H4 & H5 & H6).
    { lia. } { lia. } { destruct (returned r); lia. }
    { destruct (returned r); lia. }
    { rewrite Htk. apply wrap64_range. }
    destruct (relocateEntries handler calls (metrics_after r))
      as [results metrics'] eqn:E.
    cbn [fst snd] in *. cbn [List.length total_cycles fold_right].
    fold (total_cycles calls).
    assert (Hs : successes (returned r :: results)
                 = (if returned r then 1 else 0) + successes results).
    { unfold successes. cbn [filter]. destruct (returned r); cbn [List.length];
        lia. }
    rewrite Hs, Nat2Z.inj_succ. repeat split; try lia.
    + destruct (returned r); lia.
    + rewrite H5, Htk. rewrite !wrap64_add_l. f_equal. lia.
    + congruence.
Qed.

End RelocateEntriesFacts.

Lemma relocateEntries_counts_witness :
  fst (relocateEntries (relocate append_all) three_calls zero_metrics)
    = [true; false; false] /\
  totalRelocationCallbacks
    (snd (relocateEntries (relocate append_all) three_calls zero_metrics)) = 3 /\
  totalRelocationAppends
    (snd (relocateEntries (relocate append_all) three_calls zero_metrics)) = 1.
Proof.
  destruct (relocateEntries_counts (relocate append_all) three_calls
              zero_metrics) as (_ & Hc & Ha & _).
  - cbn. lia.
  - cbn. lia.
  - cbn. lia.
  - cbn. lia.
  - cbn. lia.
  - split; [reflexivity|]. split; [exact Hc | exact Ha].
Defined.

(** ** Keys *)

Lemma wrap64_int (x : Z) :
  is_int x -> wrap64 x = if 0 <=? x then x else 2 ^ 64 + x.
Proof.
  unfold is_int. intros H. destruct (0 <=? x) eqn:E.
  - apply Z.leb_le in E. apply wrap64_small. lia.
  - apply Z.leb_gt in E. unfold wrap64. symmetry.
    apply (Z.mod_unique x (2 ^ 64) (-1)); lia.
Qed.

(** X8. A key made from an [int] holds the value itself when it is not
    negative, as the key made from the same [uint64_t] does, and 2^64 plus
    the value when it is negative; different [int] values give different
    keys. *)
Theorem MakeKey_int_distinct (a b : Z) :
  is_int a -> is_int b ->
  0 <= val (MakeKey_int a) < 2 ^ 64 /\
  (0 <= a -> MakeKey_int a = MakeKey_uint64 a) /\
  (a < 0 -> val (MakeKey_int a) = 2 ^ 64 + a) /\
  (MakeKey_int a = MakeKey_int b -> a = b).
Proof.
  intros Ha Hb. unfold MakeKey_int, MakeKey_uint64. cbn [val].
  pose proof (wrap64_int a Ha) as Wa. pose proof (wrap64_int b Hb) as Wb.
  unfold is_int in *. repeat split.
  - apply wrap64_range.
  - apply wrap64_range.
  - intros H. f_equal. rewrite Wa.
    destruct (0 <=? a) eqn:E; [reflexivity|]. apply Z.leb_gt in E. lia.
  - intros H. rewrite Wa.
    destruct (0 <=? a) eqn:E; [|reflexivity]. apply Z.leb_le in E. lia.
  - intros [= H]. rewrite Wa, Wb in H.
    destruct (0 <=? a) eqn:Ea; destruct (0 <=? b) eqn:Eb;
      rewrite ?Z.leb_le, ?Z.leb_gt in *; lia.
Qed.

Lemma MakeKey_int_distinct_witness :
  val (MakeKey_int (-1)) = 2 ^ 64 - 1 /\
  (MakeKey_int (-1) = MakeKey_int 1 -> -1 = 1).
Proof.
  destruct (MakeKey_int_distinct (-1) 1) as (_ & _ & H & Hinj).
  - unfold is_int. lia.
  - unfold is_int. lia.
  - split; [rewrite H; lia | exact Hinj].
Defined.

(** ** Tables *)

Lemma c_str_prefix (p r : list Z) :
  Forall (fun c => c <> 0) p -> c_str (p ++ 0 :: r) = Some p.
Proof.
  induction 1 as [|c p Hc Hp IH]; [reflexivity|].
  cbn [app c_str]. apply Z.eqb_neq in Hc. now rewrite Hc, IH.
Qed.

(** An array without a NUL holds no string. *)
Lemma c_str_unterminated (a : list Z) :
  Forall (fun c => c <> 0) a -> c_str a = None.
Proof.
  induction 1 as [|c a Hc Ha IH]; [reflexivity|].
  cbn [c_str]. apply Z.eqb_neq in Hc. now rewrite Hc, IH.
Qed.

Lemma Forall_firstn_keeps {A : Type} (P : A -> Prop) (n : nat) :
  forall l, Forall P l -> Forall P (firstn n l).
Proof.
  induction n as [|n IH]; intros l Hl; [constructor|].
  destruct Hl as [|x l Hx Hl]; cbn [firstn]; constructor; auto.
Qed.

Lemma firstn_zeros (k n : nat) :
  (k <= n)%nat -> firstn k (repeat 0 n) = repeat 0 k.
Proof.
  revert n. induction k as [|k IH]; intros [|n] H; cbn; try reflexivity;
    try lia.
  f_equal. apply IH. lia.
Qed.

Section TableFacts.
Context {H : Type} {hashtable : HashtableOps H}.

(** X9. SetName keeps at most 63 characters of the new name: afterwards
    the name array still has 64 characters, the last of which is NUL, and
    GetName yields the first 63 characters of the new name, so the whole
    name when it has no more than 63. *)
Theorem SetName_truncates (t : @Table H) (new_name : list Z) :
  List.length (name t) = 64%nat ->
  Forall (fun c => c <> 0) new_name ->
  GetName (SetName t new_name) = Some (firstn 63 new_name) /\
  List.length (name (SetName t new_name)) = 64%nat /\
  nth_error (name (SetName t new_name)) 63 = Some 0 /\
  ((List.length new_name <= 63)%nat ->
   GetName (SetName t new_name) = Some new_name).
Proof.
  intros Hlen Hs.
  assert (Hcopy : List.length (strncpy (name t) new_name 64) = 64%nat).
  { unfold strncpy. rewrite length_app, length_firstn, length_skipn.
    rewrite length_app, repeat_length. lia. }
  assert (Hname : exists r,
            name (SetName t new_name) = firstn 63 new_name ++ 0 :: r).
  { unfold SetName, TABLE_NAME_MAX_LEN, store. cbn [name Nat.sub].
    unfold strncpy at 1.
    rewrite firstn_app, length_firstn, length_app, repeat_length.
    replace (63 - Nat.min 64 (List.length new_name + 64))%nat with 0%nat by lia.
    rewrite firstn_O, app_nil_r, firstn_firstn.
    replace (Nat.min 63 64) with 63%nat by reflexivity.
    rewrite firstn_app.
    destruct (Nat.le_gt_cases 63 (List.length new_name)) as [Hl|Hl].
    - replace (63 - List.length new_name)%nat with 0%nat by lia.
      rewrite firstn_O, app_nil_r. eexists. reflexivity.
    - rewrite firstn_zeros by lia.
      destruct (63 - List.length new_name)%nat as [|d] eqn:Ed; [lia|].
      cbn [repeat]. rewrite <- app_assoc. cbn [app]. eexists. reflexivity. }
  destruct Hname as (r & Hname).
  assert (Hget : GetName (SetName t new_name) = Some (firstn 63 new_name)).
  { unfold GetName. rewrite Hname. apply c_str_prefix.
    now apply Forall_firstn_keeps. }
  split; [exact Hget|]. split; [|split].
  - unfold SetName, TABLE_NAME_MAX_LEN, store. cbn [name Nat.sub].
    rewrite length_app, length_firstn. cbn [List.length].
    rewrite length_skipn. lia.
  - unfold SetName, TABLE_NAME_MAX_LEN, store. cbn [name Nat.sub].
    rewrite nth_error_app2; rewrite length_firstn, Hcopy; [|lia].
    reflexivity.
  - intros Hshort. rewrite Hget. f_equal. apply firstn_all2. exact Hshort.
Qed.

Lemma AllocateKey_result (fuel : nat) :
  forall (t t' : @Table H) (k : Z),
  AllocateKey fuel t = Some (k, t') ->
  Get t k = NULL /\ t' = set_next_key t k.
Proof.
  induction fuel as [|fuel IH]; intros t t' k; cbn [AllocateKey];
    [discriminate|].
  destruct (Get t (next_key t) =? NULL) eqn:E.
  - intros [= <- <-]. apply Z.eqb_eq in E. split; auto. now destruct t.
  - intros Hrec. apply IH in Hrec. destruct Hrec as (Hg & ->). auto.
Qed.

(** X10. Whatever AllocateKey returns is a key under which the table holds
    no object; the call changes nothing in the table but [next_key], which
    it leaves on the key returned. *)
Theorem AllocateKey_free (fuel : nat) (t t' : @Table H) (k : Z) :
  AllocateKey fuel t = Some (k, t') ->
  Get t' k = NULL /\
  next_key t' = k /\
  (forall j, Get t' j = Get t j) /\
  name t' = name t /\
  next_version t' = next_version t.
Proof.
  intros Hk. apply AllocateKey_result in Hk. destruct Hk as (Hfree & ->).
  repeat split; auto.
Qed.

(** X11. AllocateKey returns the first key from [next_key] on under which
    the table holds no object, once the loop is given enough steps to
    reach it; a second call, with nothing stored in between, returns the
    same key again. *)
Theorem AllocateKey_first_free (fuel : nat) (t : @Table H) (k : Z) :
  0 <= next_key t <= k -> k < 2 ^ 64 ->
  Get t k = NULL ->
  (forall j, next_key t <= j < k -> Get t j <> NULL) ->
  (Z.to_nat (k - next_key t) < fuel)%nat ->
  AllocateKey fuel t = Some (k, set_next_key t k) /\
  AllocateKey fuel (set_next_key t k) = Some (k, set_next_key t k).
Proof.
  intros Hk Hmax Hfree Htaken Hfuel.
  assert (Hagain : AllocateKey fuel (set_next_key t k)
                   = Some (k, set_next_key t k)).
  { destruct fuel as [|fuel]; [lia|]. cbn [AllocateKey].
    change (Get (set_next_key t k) (next_key (set_next_key t k)))
      with (Get t k).
    rewrite Hfree. reflexivity. }
  split; [|exact Hagain].
  revert t Hk Hfree Htaken Hfuel Hagain.
  induction fuel as [|fuel IH]; intros t Hk Hfree Htaken Hfuel _; [lia|].
  cbn [AllocateKey].
  destruct (Z.eq_dec (next_key t) k) as [E|E].
  - rewrite E, Hfree. cbn. rewrite <- E. now destruct t.
  - assert (Hn : Get t (next_key t) <> NULL) by (apply Htaken; lia).
    apply Z.eqb_neq in Hn. rewrite Hn.
    rewrite wrap64_small by lia.
    rewrite (IH (set_next_key t (next_key t + 1))); cbn [next_key set_next_key].
    + reflexivity.
    + lia.
    + exact Hfree.
    + intros j Hj. apply (Htaken j). lia.
    + lia.
    + destruct fuel as [|fuel']; [lia|]. cbn [AllocateKey].
      change (Get (set_next_key (set_next_key t (next_key t + 1)) k)
                (next_key (set_next_key (set_next_key t (next_key t + 1)) k)))
        with (Get t k).
      rewrite Hfree. reflexivity.
Qed.


(** X13. Successive calls of AllocateVersion return consecutive versions,
    starting from [next_version], as long as the counter does not pass
    2^64; so no version is handed out twice. *)
Theorem AllocateVersions_consecutive (n : nat) :
  forall (t : @Table H),
  0 <= next_version t < 2 ^ 64 ->
  next_version t + Z.of_nat n <= 2 ^ 64 ->
  List.length (fst (AllocateVersions n t)) = n /\
  (forall i, (i < n)%nat ->
     nth_error (fst (AllocateVersions n t)) i
       = Some (next_version t + Z.of_nat i)) /\
  next_version (snd (AllocateVersions n t))
    = wrap64 (next_version t + Z.of_nat n) /\
  object_map (snd (AllocateVersions n t)) = object_map t /\
  next_key (snd (AllocateVersions n t)) = next_key t.
Proof.
  induction n as [|n IH]; intros t H0 Hmax.
  - cbn. repeat split; try lia.
    rewrite Z.add_0_r. symmetry. apply wrap64_small. lia.
  - destruct n as [|n'].
    { cbn. repeat split; try lia.
      intros [|i] Hi; [|lia]. cbn. now rewrite Z.add_0_r. }
    change (AllocateVersions (S (S n')) t)
      with (let '(v, t1) := AllocateVersion t in
            let '(vs, t2) := AllocateVersions (S n') t1 in (v :: vs, t2)).
    cbn [AllocateVersion].
    set (t1 := {| name := name t; next_key := next_key t;
                  next_version := wrap64 (next_version t + 1);
                  object_map := object_map t |}).
    assert (Hv1 : next_version t1 = next_version t + 1).
    { unfold t1. cbn [next_version]. apply wrap64_small. lia. }
    destruct (IH t1) as (Hl & Hnth & Hnv & Hom & Hnk); [lia | lia |].
    destruct (AllocateVersions (S n') t1) as [vs t2]. cbn [fst snd] in *.
    repeat split.
    + cbn [List.length]. now rewrite Hl.
    + intros [|i] Hi; cbn [nth_error].
      * now rewrite Z.add_0_r.
      * rewrite Hnth by lia. f_equal. lia.
    + rewrite Hnv. f_equal. lia.
    + exact Hom.
    + exact Hnk.
Qed.

End TableFacts.

(** *** Instances on a concrete table *)

Lemma function_table_laws : HashtableLaws function_table.
Proof.
  split; cbn; intros.
  - now rewrite Z.eqb_refl.
  - apply Z.eqb_neq in H. now rewrite H.
  - now rewrite Z.eqb_refl.
  - apply Z.eqb_neq in H. now rewrite H.
Qed.

Lemma SetName_truncates_witness :
  GetName (SetName two_objects [104; 105]) = Some [104; 105] /\
  GetName (SetName two_objects (repeat 97 70)) = Some (repeat 97 63).
Proof.
  split.
  - apply (SetName_truncates two_objects [104; 105]).
    + reflexivity.
    + repeat constructor; discriminate.
    + cbn. lia.
  - destruct (SetName_truncates two_objects (repeat 97 70)) as (Hget & _).
    + reflexivity.
    + apply Forall_forall. intros c Hc. apply repeat_spec in Hc. subst c.
      discriminate.
    + rewrite Hget. reflexivity.
Defined.

Lemma AllocateKey_free_witness :
  Get (set_next_key two_objects 2) 2 = NULL /\
  next_key (set_next_key two_objects 2) = 2.
Proof.
  destruct (AllocateKey_free 5 two_objects (set_next_key two_objects 2) 2)
    as (Hfree & Hk & _).
  - reflexivity.
  - split; [exact Hfree | exact Hk].
Defined.

Lemma AllocateKey_first_free_witness :
  AllocateKey 5 two_objects = Some (2, set_next_key two_objects 2) /\
  AllocateKey 5 (set_next_key two_objects 2)
    = Some (2, set_next_key two_objects 2).
Proof.
  apply (AllocateKey_first_free 5 two_objects 2).
  - cbn. lia.
  - reflexivity.
  - reflexivity.
  - intros j Hj. cbn in Hj.
    assert (Hcase : j = 0 \/ j = 1) by lia.
    destruct Hcase as [-> | ->]; discriminate.
  - cbn. lia.
Defined.


Lemma AllocateVersions_consecutive_witness :
  nth_error (fst (AllocateVersions 3 two_objects)) 2 = Some 3.
Proof.
  destruct (AllocateVersions_consecutive 3 two_objects) as (_ & Hnth & _).
  - cbn. lia.
  - cbn. lia.
  - apply (Hnth 2%nat). lia.
Defined.

(** ** Forward-only traversal *)

Section Forward.
Context {L : SegmentLayout}.
Variable m : memory.
Variables buffer len : Z.
Hypothesis layout_ok : LayoutOk L.
Hypothesis bytes : byte_memory m.
Hypothesis buffer_not_null : 0 < buffer.
Hypothesis address_space :
  buffer + len + 256 ^ Z.of_nat width_length + sizeof_SegmentEntry <= 2 ^ 64.
Hypothesis header_not_empty : 0 < sizeof_SegmentEntry.

(** X14. A call of [next] on an iterator that is on an entry has one of
    three effects: the entry is the footer, and the cursor stays on it with
    the footer flag set; or the cursor becomes null; or the cursor moves
    forward, past the header and the payload of the entry, to an address
    that is still inside the buffer.  The cursor never moves backwards,
    and the buffer, its length and the first entry stay as they are. *)
Theorem next_moves_forward (it it' : SegmentIterator) :
  reachable m buffer len it ->
  currentEntry it <> NULL ->
  next m it = Ok it' ->
  ((sawFooter it' = true /\ currentEntry it' = currentEntry it) \/
   (sawFooter it' = sawFooter it /\ currentEntry it' = NULL) \/
   (sawFooter it' = sawFooter it /\
    exists l,
      entry_length m (currentEntry it) = Ok l /\
      currentEntry it' = currentEntry it + sizeof_SegmentEntry + l /\
      currentEntry it < currentEntry it' < buffer + len)) /\
  baseAddress it' = baseAddress it /\
  segmentCapacity it' = segmentCapacity it /\
  firstEntry it' = firstEntry it /\
  id it' = id it.
Proof.
  intros Hr Hc Hn.
  destruct (reachable_within m buffer len layout_ok bytes buffer_not_null
              address_space it Hr) as [_ Hw].
  destruct (Hw Hc) as (l0 & El0 & Hl0 & Hlo & Hhi).
  assert (Hr' : reachable m buffer len it') by (now apply reach_next with it).
  destruct (reachable_within m buffer len layout_ok bytes buffer_not_null
              address_space it' Hr') as [_ Hw'].
  destruct (next_cases m it it' Hc Hn) as (t & l & Et & Hcase).
  destruct Hcase as [[_ E] | (Nt & El & [[_ E] | [Hv (t' & l' & _ & _ & E)]])];
    rewrite E in *; fields; repeat split; auto.
  right. right. split; [reflexivity|].
  rewrite El0 in El. injection El as <-.
  rewrite wrap64_small in * by lia.
  exists l0. repeat split; auto; try lia.
  destruct Hw' as (l1 & _ & Hl1 & _ & Hhi1); [unfold NULL; lia | lia].
Qed.

End Forward.

Lemma next_moves_forward_witness :
  currentEntry initialised_log < currentEntry log_on_object \/
  currentEntry log_on_object = NULL \/ sawFooter log_on_object = true.
Proof.
  assert (Hn : next log_memory initialised_log = Ok log_on_object)
    by (vm_compute; reflexivity).
  destruct (next_moves_forward log_memory log_base 53)
    with (it := initialised_log) (it' := log_on_object)
    as ([[Hf _] | [[_ Hc] | [_ (l & _ & _ & Hlt & _)]]] & _).
  - exact spec_layout_ok.
  - apply memory_of_buffer_bytes. vm_compute. reflexivity.
  - reflexivity.
  - vm_compute. discriminate.
  - reflexivity.
  - apply iterate_reachable with 0%nat. vm_compute. reflexivity.
  - discriminate.
  - exact Hn.
  - right. right. exact Hf.
  - right. left. exact Hc.
  - left. exact Hlt.
Defined.
